(** * figma-icon-sync: [optimize_svg.py] and [browse_icons.py]

    A shallow embedding of the two scripts of the plugin:
    the SVG normaliser, the name canonicaliser and the variant splitter of
    [optimize_svg.py], and the classifiers and the two metadata extractors of
    [browse_icons.py].

    Python [str] values are modelled by [string]; the embedding is exact on
    ASCII text (codes below 128), where case mapping, [str.isspace] and the
    regular-expression classes of Python coincide with the definitions
    below, and the properties are read for such texts.  Python's [re]
    module is modelled by a backtracking matcher over a small pattern
    syntax, so that every pattern of the scripts is written here the way
    the source writes it.  Reading and writing files, the command line and
    the printing of the results are left out; the text that
    [format_icon_list] builds for printing is modelled. *)

From Stdlib Require Import String Ascii List Bool Arith Lia Permutation.
Import ListNotations.
Open Scope list_scope.
Open Scope string_scope.
Open Scope nat_scope.

Set Implicit Arguments.

(* ================================================================= *)
(** ** Python strings *)

Module Py.

Definition code (c : ascii) : nat := nat_of_ascii c.

Definition in_range (lo hi c : ascii) : bool :=
  (code lo <=? code c) && (code c <=? code hi).

Definition is_upper (c : ascii) : bool := in_range "A" "Z" c.
Definition is_lower (c : ascii) : bool := in_range "a" "z" c.
Definition is_digit (c : ascii) : bool := in_range "0" "9" c.
Definition is_alpha (c : ascii) : bool := is_upper c || is_lower c.

(** [str.isspace] and the class [\s]: tab, line feed, vertical tab, form
    feed, carriage return, the four separators 28..31 and the space. *)
Definition is_space (c : ascii) : bool :=
  ((9 <=? code c) && (code c <=? 13)) || ((28 <=? code c) && (code c <=? 32)).

(** The class [\w]. *)
Definition is_word (c : ascii) : bool :=
  is_alpha c || is_digit c || (c =? "_")%char.

Definition lower_char (c : ascii) : ascii :=
  if is_upper c then ascii_of_nat (code c + 32) else c.

Definition upper_char (c : ascii) : ascii :=
  if is_lower c then ascii_of_nat (code c - 32) else c.

Fixpoint map_chars (f : ascii -> ascii) (s : string) : string :=
  match s with
  | EmptyString => EmptyString
  | String c s' => String (f c) (map_chars f s')
  end.

(** [s.lower()] and [s.upper()]. *)
Definition lower (s : string) : string := map_chars lower_char s.
Definition upper (s : string) : string := map_chars upper_char s.

(** [s.capitalize()]: the first character upper-cased, all the others
    lower-cased. *)
Definition capitalize (s : string) : string :=
  match s with
  | EmptyString => EmptyString
  | String c s' => String (upper_char c) (lower s')
  end.

Fixpoint skipn (n : nat) (s : string) : string :=
  match n, s with
  | S n', String _ s' => skipn n' s'
  | _, _ => s
  end.

Fixpoint firstn (n : nat) (s : string) : string :=
  match n, s with
  | S n', String c s' => String c (firstn n' s')
  | _, _ => EmptyString
  end.

(** [sub in s]. *)
Fixpoint contains (sub s : string) : bool :=
  prefix sub s ||
  match s with
  | EmptyString => false
  | String _ s' => contains sub s'
  end.

(** [s.replace(old, new)] for a non-empty [old]: the occurrences are
    replaced from left to right, without overlap.  [skip] counts the
    characters of the occurrence being replaced that are still to pass. *)
Fixpoint replace_from (old new : string) (skip : nat) (s : string) : string :=
  match s with
  | EmptyString => EmptyString
  | String c s' =>
      match skip with
      | S k => replace_from old new k s'
      | O =>
          if prefix old s
          then new ++ replace_from old new (String.length old - 1) s'
          else String c (replace_from old new 0 s')
      end
  end.

Definition replace (old new s : string) : string :=
  replace_from old new 0 s.

(** [s.lstrip()], [s.rstrip()], [s.strip()], and their variants with an
    explicit set of characters. *)
Fixpoint lstrip_by (p : ascii -> bool) (s : string) : string :=
  match s with
  | EmptyString => EmptyString
  | String c s' => if p c then lstrip_by p s' else s
  end.

Fixpoint rstrip_by (p : ascii -> bool) (s : string) : string :=
  match s with
  | EmptyString => EmptyString
  | String c s' =>
      match rstrip_by p s' with
      | EmptyString => if p c then EmptyString else String c EmptyString
      | t => String c t
      end
  end.

Definition strip_by (p : ascii -> bool) (s : string) : string :=
  rstrip_by p (lstrip_by p s).

Definition strip (s : string) : string := strip_by is_space s.

Fixpoint mem_char (c : ascii) (chars : string) : bool :=
  match chars with
  | EmptyString => false
  | String x chars' => (c =? x)%char || mem_char c chars'
  end.

Definition strip_chars (chars s : string) : string :=
  strip_by (fun c => mem_char c chars) s.

(** [s.split()]: the maximal runs of characters that are not white space.
    [cur] is the run being read, in reverse. *)
Fixpoint rev_string (acc s : string) : string :=
  match s with
  | EmptyString => acc
  | String c s' => rev_string (String c acc) s'
  end.

Definition flush (cur : string) (out : list string) : list string :=
  match cur with
  | EmptyString => out
  | _ => rev_string EmptyString cur :: out
  end.

Fixpoint split_ws_from (cur : string) (s : string) : list string :=
  match s with
  | EmptyString => flush cur []
  | String c s' =>
      if is_space c
      then flush cur (split_ws_from EmptyString s')
      else split_ws_from (String c cur) s'
  end.

Definition split_ws (s : string) : list string := split_ws_from EmptyString s.

(** [''.join(ws)]. *)
Definition join (ws : list string) : string :=
  fold_right String.append EmptyString ws.

End Py.

(* ================================================================= *)
(** ** Python regular expressions *)

Module Re.
Import Py.

(** The items of a bracketed set; [\s], [\w] and [\d] standing alone are
    one-item sets. *)
Inductive citem : Type :=
| CChar (c : ascii)
| CRange (lo hi : ascii)
| CSpace
| CWord
| CDigit.

Inductive regex : Type :=
| Eps
| Chr (c : ascii)
| Dot
| Set_ (neg : bool) (items : list citem)
| Seq (r1 r2 : regex)
| Alt (r1 r2 : regex)
| Star (greedy : bool) (r : regex)
| Grp (n : nat) (r : regex)
| Bos
| Eos.

(** [r+] and [r?] (both greedy) and a literal word. *)
Definition Plus (r : regex) : regex := Seq r (Star true r).
Definition Opt (r : regex) : regex := Alt r Eps.

Fixpoint Lit (s : string) : regex :=
  match s with
  | EmptyString => Eps
  | String c EmptyString => Chr c
  | String c s' => Seq (Chr c) (Lit s')
  end.

Fixpoint Cat (rs : list regex) : regex :=
  match rs with
  | [] => Eps
  | [r] => r
  | r :: rs' => Seq r (Cat rs')
  end.

Record flags : Type := Flags { ignorecase : bool; dotall : bool }.

Definition no_flags : flags := Flags false false.
Definition IGNORECASE : flags := Flags true false.
Definition DOTALL : flags := Flags false true.

(** The state of a match attempt: the index reached, the text still to
    read and the groups captured so far. *)
Record mstate : Type := MState {
  pos : nat;
  rest : string;
  caps : list (nat * string)
}.

Definition step (st : mstate) (s' : string) : mstate :=
  MState (S (pos st)) s' (caps st).

Fixpoint set_cap (n : nat) (v : string) (cs : list (nat * string))
  : list (nat * string) :=
  match cs with
  | [] => [(n, v)]
  | (m, w) :: cs' => if m =? n then (n, v) :: cs' else (m, w) :: set_cap n v cs'
  end.

Fixpoint group (n : nat) (cs : list (nat * string)) : string :=
  match cs with
  | [] => EmptyString
  | (m, w) :: cs' => if m =? n then w else group n cs'
  end.

(** [$] without [MULTILINE]: at the end of the text, or just before a line
    feed that ends the text. *)
Definition at_end (s : string) : bool :=
  match s with
  | EmptyString => true
  | String c EmptyString => (c =? "010")%char
  | _ => false
  end.

Section Matcher.

Variable fl : flags.

Definition char_ok (c x : ascii) : bool :=
  if ignorecase fl
  then (lower_char x =? lower_char c)%char
  else (x =? c)%char.

(** Under [IGNORECASE] the compiled set holds the lower-cased literals and
    ranges, and is tested on the lower-cased character. *)
Definition item_ok (x : ascii) (it : citem) : bool :=
  match it with
  | CChar c => char_ok c x
  | CRange lo hi =>
      if ignorecase fl
      then in_range lo hi (lower_char x) || in_range lo hi (upper_char (lower_char x))
      else in_range lo hi x
  | CSpace => is_space x
  | CWord => is_word x
  | CDigit => is_digit x
  end.

Definition set_ok (neg : bool) (items : list citem) (x : ascii) : bool :=
  xorb neg (existsb (item_ok x) items).

Definition dot_ok (x : ascii) : bool :=
  dotall fl || negb (x =? "010")%char.

Definition one (p : ascii -> bool) (st : mstate)
  (k : mstate -> option mstate) : option mstate :=
  match rest st with
  | EmptyString => None
  | String x s' => if p x then k (step st s') else None
  end.

Definition orelse (a b : option mstate) : option mstate :=
  match a with
  | Some _ => a
  | None => b
  end.

(** Repetition.  An iteration must read at least one character; [n]
    bounds the number of iterations by the length of the text left. *)
Fixpoint star_loop (greedy : bool)
  (body : mstate -> (mstate -> option mstate) -> option mstate)
  (n : nat) (st : mstate) (k : mstate -> option mstate) : option mstate :=
  match n with
  | O => k st
  | S n' =>
      let again :=
        body st (fun st' =>
          if pos st <? pos st' then star_loop greedy body n' st' k else None) in
      if greedy then orelse again (k st) else orelse (k st) again
  end.

Fixpoint rmatch (r : regex) (st : mstate) (k : mstate -> option mstate)
  {struct r} : option mstate :=
  match r with
  | Eps => k st
  | Chr c => one (char_ok c) st k
  | Dot => one dot_ok st k
  | Set_ neg items => one (set_ok neg items) st k
  | Seq r1 r2 => rmatch r1 st (fun st' => rmatch r2 st' k)
  | Alt r1 r2 => orelse (rmatch r1 st k) (rmatch r2 st k)
  | Star g r' => star_loop g (rmatch r') (String.length (rest st)) st k
  | Grp n r' =>
      rmatch r' st (fun st' =>
        k (MState (pos st') (rest st')
             (set_cap n (firstn (pos st' - pos st) (rest st)) (caps st'))))
  | Bos => if pos st =? 0 then k st else None
  | Eos => if at_end (rest st) then k st else None
  end.

(** One attempt at index [i], where [s] is the text from [i] on: the
    number of characters matched and the groups.  With [must_advance] an
    empty match is refused (the attempt that follows an empty match). *)
Definition match_at (r : regex) (i : nat) (s : string) (must_advance : bool)
  : option (nat * list (nat * string)) :=
  match rmatch r (MState i s [])
          (fun st' => if must_advance && (pos st' =? i) then None else Some st')
  with
  | Some st' => Some (pos st' - i, caps st')
  | None => None
  end.

(** [re.search]: the first index at which an attempt succeeds. *)
Fixpoint search_from (r : regex) (i : nat) (s : string)
  : option (nat * nat * list (nat * string)) :=
  match match_at r i s false with
  | Some (n, g) => Some (i, n, g)
  | None =>
      match s with
      | EmptyString => None
      | String _ s' => search_from r (S i) s'
      end
  end.

(** The scan shared by [re.sub], [re.split] and [re.finditer]: the text
    cut into the characters kept and the matches found, from left to
    right without overlap.  After an empty match the next attempt at the
    same index must advance. *)
Inductive piece : Type :=
| Keep (c : ascii)
| Hit (text : string) (groups : list (nat * string)).

Fixpoint scan (r : regex) (i skip : nat) (s : string) {struct s} : list piece :=
  match skip with
  | S k =>
      match s with
      | EmptyString => []
      | String _ s' => scan r (S i) k s'
      end
  | O =>
      match match_at r i s false with
      | Some (S n, g) =>
          Hit (firstn (S n) s) g ::
          match s with
          | EmptyString => []
          | String _ s' => scan r (S i) n s'
          end
      | Some (O, g) =>
          Hit EmptyString g ::
          match s with
          | EmptyString => []
          | String c s' =>
              match match_at r i s true with
              | Some (S n, g') => Hit (firstn (S n) s) g' :: scan r (S i) n s'
              | _ => Keep c :: scan r (S i) 0 s'
              end
          end
      | None =>
          match s with
          | EmptyString => []
          | String c s' => Keep c :: scan r (S i) 0 s'
          end
      end
  end.

End Matcher.

Definition search (fl : flags) (r : regex) (s : string) : bool :=
  match search_from fl r 0 s with
  | Some _ => true
  | None => false
  end.

(** Replacement templates: literal text and group references [\n]. *)
Inductive titem : Type :=
| TLit (s : string)
| TGrp (n : nat).

Definition expand (tmpl : list titem) (g : list (nat * string)) : string :=
  join (map (fun t => match t with TLit s => s | TGrp n => group n g end) tmpl).

Definition render (tmpl : list titem) (p : piece) : string :=
  match p with
  | Keep c => String c EmptyString
  | Hit _ g => expand tmpl g
  end.

(** [re.sub(r, tmpl, s, flags=fl)]. *)
Definition sub (fl : flags) (r : regex) (tmpl : list titem) (s : string) : string :=
  join (map (render tmpl) (scan fl r 0 0 s)).

(** [re.split(r, s)] for a pattern without groups: the texts between the
    matches.  [cur] is the text being read, in reverse. *)
Fixpoint split_pieces (cur : string) (ps : list piece) : list string :=
  match ps with
  | [] => [rev_string EmptyString cur]
  | Keep c :: ps' => split_pieces (String c cur) ps'
  | Hit _ _ :: ps' => rev_string EmptyString cur :: split_pieces EmptyString ps'
  end.

Definition split (fl : flags) (r : regex) (s : string) : list string :=
  split_pieces EmptyString (scan fl r 0 0 s).

(** [re.finditer(r, s)]: the groups of the successive matches. *)
Fixpoint hits (ps : list piece) : list (list (nat * string)) :=
  match ps with
  | [] => []
  | Keep _ :: ps' => hits ps'
  | Hit _ g :: ps' => g :: hits ps'
  end.

Definition finditer (fl : flags) (r : regex) (s : string)
  : list (list (nat * string)) :=
  hits (scan fl r 0 0 s).

End Re.

(* ================================================================= *)
(** ** [optimize_svg.py] *)

Import Py Re.

(** The double quote and the line feed, as characters and as texts. *)
Definition dq : ascii := "034"%char.
Definition nl : ascii := "010"%char.
Definition q : string := String dq EmptyString.
Definition newline : string := String nl EmptyString.

(** Pieces shared by the patterns: [\s], [\s*], [[^']], [[^>]].  In the
    comments of this file the double quote of a source pattern is written
    as an apostrophe. *)
Definition space : regex := Set_ false [CSpace].
Definition spaces : regex := Star true space.
Definition not_dq : regex := Set_ true [CChar dq].
Definition not_gt : regex := Set_ true [CChar ">"%char].

(** [name='[^']*'], the shape of every attribute the normaliser rewrites. *)
Definition attribute (name : string) : regex :=
  Cat [Lit name; Chr "="%char; Chr dq; Star true not_dq; Chr dq].

Definition attribute_text (name value : string) : string :=
  name ++ "=" ++ q ++ value ++ q.

(** [viewBox='[^']*'], [width='[^']*'], [height='[^']*']. *)
Definition viewBox_re : regex := attribute "viewBox".
Definition width_re : regex := attribute "width".
Definition height_re : regex := attribute "height".

(** [\s*data-[a-zA-Z-]*='[^']*']. *)
Definition data_re : regex :=
  Cat [spaces; Lit "data-";
       Star true (Set_ false [CRange "a" "z"; CRange "A" "Z"; CChar "-"%char]);
       Chr "="%char; Chr dq; Star true not_dq; Chr dq].

(** [<\?xml[^>]*\?>\s*]. *)
Definition xml_decl_re : regex :=
  Cat [Lit "<?xml"; Star true not_gt; Lit "?>"; spaces].

(** [<!DOCTYPE[^>]*>\s*]. *)
Definition doctype_re : regex :=
  Cat [Lit "<!DOCTYPE"; Star true not_gt; Chr ">"%char; spaces].

(** [<!--.*?-->], with [re.DOTALL]. *)
Definition comment_re : regex :=
  Cat [Lit "<!--"; Star false Dot; Lit "-->"].

(** [<g[^>]*>\s*</g>]. *)
Definition empty_group_re : regex :=
  Cat [Lit "<g"; Star true not_gt; Chr ">"%char; spaces; Lit "</g>"].

(** [\s*xmlns:figma='[^']*'] and [\s*id='[^']*']. *)
Definition xmlns_figma_re : regex := Seq spaces (attribute "xmlns:figma").
Definition id_re : regex := Seq spaces (attribute "id").

(** [\n\s*\n] and [>\s+<]. *)
Definition blank_lines_re : regex := Cat [Chr nl; spaces; Chr nl].
Definition between_tags_re : regex :=
  Cat [Chr ">"%char; Plus space; Chr "<"%char].

(** The three canvas steps: rewrite the declaration where its name occurs,
    and otherwise put it after every [<svg ] followed by a space. *)
Definition force_viewBox (svg_content : string) : string :=
  if contains "viewBox" svg_content
  then sub no_flags viewBox_re [TLit (attribute_text "viewBox" "0 0 24 24")]
         svg_content
  else replace "<svg " ("<svg " ++ attribute_text "viewBox" "0 0 24 24" ++ " ")
         svg_content.

Definition force_width (svg_content : string) : string :=
  if contains "width=" svg_content
  then sub no_flags width_re [TLit (attribute_text "width" "24")] svg_content
  else replace "<svg " ("<svg " ++ attribute_text "width" "24" ++ " ")
         svg_content.

Definition force_height (svg_content : string) : string :=
  if contains "height=" svg_content
  then sub no_flags height_re [TLit (attribute_text "height" "24")] svg_content
  else replace "<svg " ("<svg " ++ attribute_text "height" "24" ++ " ")
         svg_content.

(** The removals, in the order of the source, up to [strip()]. *)
Definition removals : list (flags * regex * list titem) :=
  [ (no_flags, data_re, []);
    (no_flags, xml_decl_re, []);
    (no_flags, doctype_re, []);
    (DOTALL, comment_re, []);
    (no_flags, empty_group_re, []);
    (no_flags, xmlns_figma_re, []);
    (no_flags, id_re, []);
    (no_flags, blank_lines_re, [TLit newline]);
    (no_flags, between_tags_re, [TLit "><"]) ].

Definition apply_sub (s : string) (step : flags * regex * list titem) : string :=
  let '(fl, r, tmpl) := step in sub fl r tmpl s.

Definition clean (svg_content : string) : string :=
  strip (fold_left apply_sub removals svg_content).

(** The default fill, for a text without [fill=]. *)
Definition default_fill (svg_content : string) : string :=
  if negb (contains "fill=" svg_content)
  then replace "<svg " ("<svg " ++ attribute_text "fill" "currentColor" ++ " ")
         svg_content
  else svg_content.

Definition optimize_svg (svg_content : string) : string :=
  default_fill (clean (force_height (force_width (force_viewBox svg_content)))).

(** *** [to_pascal_case] *)

(** [\.(svg|png|jpg)$]. *)
Definition extension_re : regex :=
  Cat [Chr "."%char; Grp 1 (Alt (Lit "svg") (Alt (Lit "png") (Lit "jpg"))); Eos].

(** [[-_\s]] and [[-_\s]+]. *)
Definition delimiter : regex := Set_ false [CChar "-"%char; CChar "_"%char; CSpace].
Definition delimiters_re : regex := Plus delimiter.

(** [([a-z])([A-Z])], replaced by [\1 \2]. *)
Definition camel_re : regex :=
  Seq (Grp 1 (Set_ false [CRange "a" "z"])) (Grp 2 (Set_ false [CRange "A" "Z"])).
Definition camel_tmpl : list titem := [TGrp 1; TLit " "; TGrp 2].

(** The list [expanded_words] at the end of the loop. *)
Definition expanded_words (name : string) : list string :=
  let name := sub IGNORECASE extension_re [] name in
  let words := split no_flags delimiters_re name in
  flat_map (fun word => split_ws (sub no_flags camel_re camel_tmpl word)) words.

Definition nonempty (w : string) : bool :=
  match w with
  | EmptyString => false
  | _ => true
  end.

Definition to_pascal_case (name : string) : string :=
  join (map capitalize (filter nonempty (expanded_words name))).

(** *** [determine_variant] *)

(** [[-_\s]?outlined?$], [[-_\s]?outline$], [[-_\s]?line$],
    [[-_\s]?stroke$]. *)
Definition outlined_patterns : list regex :=
  [ Cat [Opt delimiter; Lit "outline"; Opt (Chr "d"%char); Eos];
    Cat [Opt delimiter; Lit "outline"; Eos];
    Cat [Opt delimiter; Lit "line"; Eos];
    Cat [Opt delimiter; Lit "stroke"; Eos] ].

(** The loop over the patterns: the first one found in [lower_name] is
    removed from [name]. *)
Fixpoint first_variant (patterns : list regex) (lower_name name : string)
  : string * bool :=
  match patterns with
  | [] => (name, false)
  | pattern :: patterns' =>
      if search IGNORECASE pattern lower_name
      then (sub IGNORECASE pattern [] name, true)
      else first_variant patterns' lower_name name
  end.

Definition determine_variant (name : string) : string * bool :=
  let '(base_name, is_outlined) :=
    first_variant outlined_patterns (lower name) name in
  (strip_chars "-_" base_name, is_outlined).

(** *** [process_icon_file]

    The part between the read and the write: [content] is the text read
    from the input file and [stem] is [path.stem]; the result is the
    optimised text with the name of the output file. *)
Inductive error : Type :=
| ValueError.

Definition process_icon_file (content stem : string) (force_outlined : option bool)
  : error + (string * string) :=
  if negb (contains "<svg" (lower content)) then inl ValueError
  else
    let optimized := optimize_svg content in
    let '(base_name, auto_outlined) := determine_variant stem in
    let is_outlined :=
      match force_outlined with
      | Some b => b
      | None => auto_outlined
      end in
    let pascal_name := to_pascal_case base_name in
    let output_name :=
      if is_outlined then pascal_name ++ "Outlined.svg"
      else pascal_name ++ ".svg" in
    inr (optimized, output_name).

(* ================================================================= *)
(** ** [browse_icons.py] *)

Record IconInfo : Type := mkIconInfo {
  name : string;
  node_id : string;
  section : string;
  is_outlined : bool;
  path : string
}.

(** [x in [...]] for a text [x]. *)
Definition mem (x : string) (l : list string) : bool :=
  existsb (String.eqb x) l.

(** [^icon[-_]], [[-_]icon$], [^ic[-_]], [[-_]ic$], [^\d+[-_]]. *)
Definition hyphen : regex := Set_ false [CChar "-"%char; CChar "_"%char].

Definition icon_patterns : list regex :=
  [ Cat [Bos; Lit "icon"; hyphen];
    Cat [hyphen; Lit "icon"; Eos];
    Cat [Bos; Lit "ic"; hyphen];
    Cat [hyphen; Lit "ic"; Eos];
    Cat [Bos; Plus (Set_ false [CDigit]); hyphen] ].

Definition exclude_patterns : list string :=
  ["button"; "input"; "card"; "modal"; "dialog"; "form"].

Definition is_icon_node (name node_type : string) : bool :=
  if mem (upper node_type) ["PAGE"; "DOCUMENT"; "SECTION"] then false
  else
    let lower_name := lower name in
    if existsb (fun pattern => search no_flags pattern lower_name) icon_patterns
    then true
    else if mem (upper node_type) ["COMPONENT"; "COMPONENT_SET"; "INSTANCE"]
    then negb (existsb (fun p => contains p lower_name) exclude_patterns)
    else false.

(** [^outline[-_\s]]. *)
Definition outline_prefix : regex := Cat [Bos; Lit "outline"; delimiter].

(** The list [outlined_patterns] of [check_outlined_variant]:
    [[-_\s]outlined?$], [[-_\s]outline$], [[-_\s]line$], [[-_\s]stroke$],
    [^outline[-_\s]]. *)
Definition check_outlined_patterns : list regex :=
  [ Cat [delimiter; Lit "outline"; Opt (Chr "d"%char); Eos];
    Cat [delimiter; Lit "outline"; Eos];
    Cat [delimiter; Lit "line"; Eos];
    Cat [delimiter; Lit "stroke"; Eos];
    outline_prefix ].

Definition check_outlined_variant (name : string) : bool :=
  let lower_name := lower name in
  existsb (fun p => search no_flags p lower_name) check_outlined_patterns.

(** *** [parse_xml_metadata] *)

(** [<(\w+)[^>]*\s+name='([^']+)'[^>]*\s+id='([^']+)'], with
    [re.IGNORECASE]. *)
Definition node_pattern : regex :=
  Cat [Chr "<"%char; Grp 1 (Plus (Set_ false [CWord])); Star true not_gt;
       Plus space; Lit "name="; Chr dq; Grp 2 (Plus not_dq); Chr dq;
       Star true not_gt;
       Plus space; Lit "id="; Chr dq; Grp 3 (Plus not_dq); Chr dq].

(** The loop over the matches, with [current_section] as its state. *)
Fixpoint xml_loop (current_section : string) (matches : list (list (nat * string)))
  : list IconInfo :=
  match matches with
  | [] => []
  | m :: matches' =>
      let node_type := group 1 m in
      let name := group 2 m in
      let node_id := group 3 m in
      if mem (upper node_type) ["FRAME"; "PAGE"; "SECTION"]
      then xml_loop name matches'
      else if is_icon_node name node_type
      then mkIconInfo name node_id current_section
             (check_outlined_variant name) (current_section ++ "/" ++ name)
           :: xml_loop current_section matches'
      else xml_loop current_section matches'
  end.

Definition parse_xml_metadata (content : string) : list IconInfo :=
  xml_loop "" (finditer IGNORECASE node_pattern content).

(** *** Outcomes of the code that can fail

    [Raise e] is a Python exception leaving the function.  [Beyond] marks
    an input outside this embedding, on which nothing is stated: a value
    that is not a text where the code stores or formats it without testing
    its type, or an escape of the data denoting a character above 127. *)
Inductive exn : Type :=
| JSONDecodeError
| AttributeError
| TypeError.

Inductive outcome (A : Type) : Type :=
| Ok (a : A)
| Raise (e : exn)
| Beyond.

Arguments Raise {A} e.
Arguments Beyond {A}.

Definition bind {A B : Type} (m : outcome A) (f : A -> outcome B) : outcome B :=
  match m with
  | Ok a => f a
  | Raise e => Raise e
  | Beyond => Beyond
  end.

Notation "x <- m ;; k" := (bind m (fun x => k))
  (at level 61, m at next level, right associativity).

(** *** [json.loads] (Python's library)

    The decoded values.  A number keeps its text: the scripts never look
    at it.  An object keeps one value for each key, in the order of the
    first occurrence of the keys, like the [dict] Python builds. *)
Module Json.

#[local] Unset Elimination Schemes.

Inductive json : Type :=
| JNull
| JBool (b : bool)
| JNum (text : string)
| JStr (s : string)
| JArr (items : list json)
| JObj (fields : list (string * json)).

#[local] Set Elimination Schemes.

(** [d[k] = v]. *)
Fixpoint dict_set (k : string) (v : json) (d : list (string * json))
  : list (string * json) :=
  match d with
  | [] => [(k, v)]
  | (k', v') :: d' =>
      if String.eqb k' k then (k, v) :: d' else (k', v') :: dict_set k v d'
  end.

(** [d.get(k, default)]. *)
Fixpoint dict_get (k : string) (d : list (string * json)) (default : json) : json :=
  match d with
  | [] => default
  | (k', v) :: d' => if String.eqb k' k then v else dict_get k d' default
  end.

(** The lexical level: one pass over the characters. *)
Inductive token : Type :=
| TOpenObj | TCloseObj | TOpenArr | TCloseArr | TColon | TComma
| TString (s : string)
| TAtom (v : json)
| TError
| TBeyond.

Inductive nphase : Type :=
| NSign | NZero | NInt | NDot | NFrac | NE | NESign | NExp.

Inductive lstate : Type :=
| LStart
| LStr (acc : string)
| LEsc (acc : string)
| LHex (acc : string) (value todo : nat)
| LWord (v : json) (expected : string)
| LNum (ph : nphase) (acc : string)
| LDead.

Definition text_of (acc : string) : string := rev_string EmptyString acc.

Definition is_json_space (c : ascii) : bool := mem_char c (String " " (String "009" (String "010" (String "013" EmptyString)))).

Definition hex_value (c : ascii) : option nat :=
  if is_digit c then Some (code c - 48)
  else if in_range "a" "f" c then Some (code c - 87)
  else if in_range "A" "F" c then Some (code c - 55)
  else None.

(** The character an escape stands for. *)
Definition unescape (c : ascii) : option ascii :=
  if (c =? dq)%char then Some dq
  else if (c =? "\")%char then Some "\"%char
  else if (c =? "/")%char then Some "/"%char
  else if (c =? "b")%char then Some "008"%char
  else if (c =? "f")%char then Some "012"%char
  else if (c =? "n")%char then Some "010"%char
  else if (c =? "r")%char then Some "013"%char
  else if (c =? "t")%char then Some "009"%char
  else None.

Definition fail : list token * lstate := ([TError], LDead).

(** A character read where a value, a key or a separator may start. *)
Definition lex_start (c : ascii) : list token * lstate :=
  if is_json_space c then ([], LStart)
  else if (c =? "{")%char then ([TOpenObj], LStart)
  else if (c =? "}")%char then ([TCloseObj], LStart)
  else if (c =? "[")%char then ([TOpenArr], LStart)
  else if (c =? "]")%char then ([TCloseArr], LStart)
  else if (c =? ":")%char then ([TColon], LStart)
  else if (c =? ",")%char then ([TComma], LStart)
  else if (c =? dq)%char then ([], LStr EmptyString)
  else if (c =? "n")%char then ([], LWord JNull "ull")
  else if (c =? "t")%char then ([], LWord (JBool true) "rue")
  else if (c =? "f")%char then ([], LWord (JBool false) "alse")
  else if (c =? "N")%char then ([], LWord (JNum "NaN") "aN")
  else if (c =? "I")%char then ([], LWord (JNum "Infinity") "nfinity")
  else if (c =? "-")%char then ([], LNum NSign (String c EmptyString))
  else if (c =? "0")%char then ([], LNum NZero (String c EmptyString))
  else if is_digit c then ([], LNum NInt (String c EmptyString))
  else fail.

(** A number ends before [c], which is then read as a start. *)
Definition end_number (acc : string) (c : ascii) : list token * lstate :=
  let '(ts, st) := lex_start c in (TAtom (JNum (text_of acc)) :: ts, st).

Definition is_e (c : ascii) : bool := (c =? "e")%char || (c =? "E")%char.

Definition lex_number (ph : nphase) (acc : string) (c : ascii)
  : list token * lstate :=
  let more ph' := ([], LNum ph' (String c acc)) in
  match ph with
  | NSign =>
      if (c =? "0")%char then more NZero
      else if is_digit c then more NInt
      else if (c =? "I")%char then ([], LWord (JNum "-Infinity") "nfinity")
      else fail
  | NZero =>
      if (c =? ".")%char then more NDot
      else if is_e c then more NE
      else end_number acc c
  | NInt =>
      if is_digit c then more NInt
      else if (c =? ".")%char then more NDot
      else if is_e c then more NE
      else end_number acc c
  | NDot => if is_digit c then more NFrac else fail
  | NFrac =>
      if is_digit c then more NFrac
      else if is_e c then more NE
      else end_number acc c
  | NE =>
      if (c =? "+")%char || (c =? "-")%char then more NESign
      else if is_digit c then more NExp
      else fail
  | NESign => if is_digit c then more NExp else fail
  | NExp => if is_digit c then more NExp else end_number acc c
  end.

Definition lex_char (st : lstate) (c : ascii) : list token * lstate :=
  match st with
  | LStart => lex_start c
  | LStr acc =>
      if (c =? dq)%char then ([TString (text_of acc)], LStart)
      else if (c =? "\")%char then ([], LEsc acc)
      else if code c <? 32 then fail
      else ([], LStr (String c acc))
  | LEsc acc =>
      if (c =? "u")%char then ([], LHex acc 0 4)
      else match unescape c with
           | Some x => ([], LStr (String x acc))
           | None => fail
           end
  | LHex acc value todo =>
      match hex_value c with
      | None => fail
      | Some d =>
          let value' := 16 * value + d in
          match todo with
          | S (S todo') => ([], LHex acc value' (S todo'))
          | _ =>
              if value' <? 128
              then ([], LStr (String (ascii_of_nat value') acc))
              else ([TBeyond], LDead)
          end
      end
  | LWord v expected =>
      match expected with
      | String x EmptyString =>
          if (c =? x)%char then ([TAtom v], LStart) else fail
      | String x expected' =>
          if (c =? x)%char then ([], LWord v expected') else fail
      | EmptyString => fail
      end
  | LNum ph acc => lex_number ph acc c
  | LDead => ([], LDead)
  end.

Definition lex_end (st : lstate) : list token :=
  match st with
  | LStart | LDead => []
  | LNum NZero acc | LNum NInt acc | LNum NFrac acc | LNum NExp acc =>
      [TAtom (JNum (text_of acc))]
  | _ => [TError]
  end.

Fixpoint lex (st : lstate) (s : string) : list token :=
  match s with
  | EmptyString => lex_end st
  | String c s' => let '(ts, st') := lex_char st c in (ts ++ lex st' s')%list
  end.

(** The structure: the containers being read, innermost first, and what
    may come next. *)
Inductive frame : Type :=
| FArr (items : list json)
| FObj (fields : list (string * json)) (key : option string).

Inductive mode : Type :=
| MValue
| MArrFirst
| MObjFirst
| MKey
| MColon
| MAfter
| MDone (v : json)
| MFail.

(** The value [v] is complete. *)
Definition complete (v : json) (stack : list frame) : mode * list frame :=
  match stack with
  | [] => (MDone v, [])
  | FArr items :: stack' => (MAfter, FArr (v :: items) :: stack')
  | FObj fields (Some k) :: stack' => (MAfter, FObj (dict_set k v fields) None :: stack')
  | FObj _ None :: _ => (MFail, stack)
  end.

Definition value_token (t : token) (stack : list frame) : mode * list frame :=
  match t with
  | TString s => complete (JStr s) stack
  | TAtom v => complete v stack
  | TOpenArr => (MArrFirst, FArr [] :: stack)
  | TOpenObj => (MObjFirst, FObj [] None :: stack)
  | _ => (MFail, stack)
  end.

Definition key_token (t : token) (stack : list frame) : mode * list frame :=
  match t, stack with
  | TString k, FObj fields None :: stack' => (MColon, FObj fields (Some k) :: stack')
  | _, _ => (MFail, stack)
  end.

Definition close (t : token) (stack : list frame) : mode * list frame :=
  match t, stack with
  | TCloseArr, FArr items :: stack' => complete (JArr (rev items)) stack'
  | TCloseObj, FObj fields None :: stack' => complete (JObj fields) stack'
  | _, _ => (MFail, stack)
  end.

Definition parse_token (m : mode) (stack : list frame) (t : token)
  : mode * list frame :=
  match m with
  | MValue => value_token t stack
  | MArrFirst =>
      match t with
      | TCloseArr => close t stack
      | _ => value_token t stack
      end
  | MObjFirst =>
      match t with
      | TCloseObj => close t stack
      | _ => key_token t stack
      end
  | MKey => key_token t stack
  | MColon =>
      match t with
      | TColon => (MValue, stack)
      | _ => (MFail, stack)
      end
  | MAfter =>
      match t, stack with
      | TComma, FArr _ :: _ => (MValue, stack)
      | TComma, FObj _ _ :: _ => (MKey, stack)
      | _, _ => close t stack
      end
  | MDone _ | MFail => (MFail, stack)
  end.

Fixpoint parse (m : mode) (stack : list frame) (ts : list token) : outcome json :=
  match ts with
  | [] =>
      match m with
      | MDone v => Ok v
      | _ => Raise JSONDecodeError
      end
  | TBeyond :: _ =>
      match m with
      | MFail => Raise JSONDecodeError
      | _ => Beyond
      end
  | t :: ts' =>
      match m with
      | MFail => Raise JSONDecodeError
      | _ => let '(m', stack') := parse_token m stack t in parse m' stack' ts'
      end
  end.

Definition loads (s : string) : outcome json :=
  parse MValue [] (lex LStart s).

End Json.
Import Json.

(** *** [parse_json_metadata]

    [name], [type] and [id] are read with the empty text as default.
    [node_type.upper()] and [name.lower()] raise [AttributeError] on a value
    that is not a text; a name that is never lower-cased (the node is a
    container) or an [id] that is stored in a record may be any value in
    Python, and is a text here.  The children are the items of a list; a
    text or an object iterates over texts, which yield nothing, and any
    other value cannot be iterated. *)
Fixpoint parse_json_metadata (data : json) (path section : string)
  {struct data} : outcome (list IconInfo) :=
  match data with
  | JObj fields =>
      match dict_get "type" fields (JStr ""), dict_get "name" fields (JStr "") with
      | JStr node_type, JStr name =>
          let current_section :=
            if mem node_type ["PAGE"; "FRAME"; "SECTION"] then name else section in
          let current_path :=
            match path with
            | EmptyString => name
            | _ => path ++ "/" ++ name
            end in
          own <-
            (if is_icon_node name node_type
             then match dict_get "id" fields (JStr "") with
                  | JStr node_id =>
                      Ok [mkIconInfo name node_id current_section
                            (check_outlined_variant name) current_path]
                  | _ => Beyond
                  end
             else Ok []) ;;
          below <-
            (fix children (d : list (string * json)) : outcome (list IconInfo) :=
               match d with
               | [] => Ok []
               | (k, v) :: d' =>
                   if String.eqb k "children"
                   then match v with
                        | JArr items =>
                            (fix extend (cs : list json) : outcome (list IconInfo) :=
                               match cs with
                               | [] => Ok []
                               | child :: cs' =>
                                   found <- parse_json_metadata child current_path
                                              current_section ;;
                                   more <- extend cs' ;;
                                   Ok (found ++ more)%list
                               end) items
                        | JStr _ | JObj _ => Ok []
                        | JNull | JBool _ | JNum _ => Raise TypeError
                        end
                   else children d'
               end) fields ;;
          Ok (own ++ below)%list
      | JStr node_type, _ =>
          if mem (upper node_type) ["PAGE"; "DOCUMENT"; "SECTION"]
          then Beyond
          else Raise AttributeError
      | _, _ => Raise AttributeError
      end
  | _ => Ok []
  end.

(** *** [parse_figma_metadata] *)
Definition parse_figma_metadata (content : string) : outcome (list IconInfo) :=
  match loads content with
  | Ok data => parse_json_metadata data "" ""
  | Raise JSONDecodeError => Ok (parse_xml_metadata content)
  | Raise e => Raise e
  | Beyond => Beyond
  end.

(** *** [search_icons], [filter_by_section], [list_sections] *)

Definition search_icons (icons : list IconInfo) (query : string) : list IconInfo :=
  let query_lower := lower query in
  filter (fun icon => contains query_lower (lower (name icon))) icons.

(** The second argument is named [section] in the source. *)
Definition filter_by_section (icons : list IconInfo) (wanted : string)
  : list IconInfo :=
  let section_lower := lower wanted in
  filter (fun icon => contains section_lower (lower (section icon))) icons.

(** [sorted(l)] on texts, which Python compares character by character:
    each text is put before the first one that is not smaller. *)
Fixpoint insert_sorted (x : string) (l : list string) : list string :=
  match l with
  | [] => [x]
  | y :: l' => if String.leb x y then x :: l else y :: insert_sorted x l'
  end.

Definition sorted (l : list string) : list string :=
  fold_right insert_sorted [] l.

(** [set(l)]: one copy of each text; the order in which a set is read is
    forgotten by [sorted]. *)
Definition set_of (l : list string) : list string := nodup string_dec l.

Definition list_sections (icons : list IconInfo) : list string :=
  sorted (set_of (map section (filter (fun icon => nonempty (section icon)) icons))).

(** *** The summary printed by [main]: the numbers of icons, of filled
    icons, of outlined icons and of sections. *)
Definition summary (icons : list IconInfo) : nat * nat * nat * nat :=
  (List.length icons,
   List.length (filter (fun i => negb (is_outlined i)) icons),
   List.length (filter (fun i => is_outlined i) icons),
   List.length (list_sections icons)).

(** *** [format_icon_list] *)

(** [icon.section or 'Uncategorized']. *)
Definition section_or_default (icon : IconInfo) : string :=
  if nonempty (section icon) then section icon else "Uncategorized".

(** The dictionary [by_section], in the order in which its keys were
    created: [by_section[key].append(icon)], where a key that is not there
    yet is created with an empty list first. *)
Fixpoint group_append (key : string) (icon : IconInfo)
  (d : list (string * list IconInfo)) : list (string * list IconInfo) :=
  match d with
  | [] => [(key, [icon])]
  | (k, l) :: d' =>
      if String.eqb key k then (k, (l ++ [icon])%list) :: d'
      else (k, l) :: group_append key icon d'
  end.

Definition by_section (icons : list IconInfo) : list (string * list IconInfo) :=
  fold_left (fun d icon => group_append (section_or_default icon) icon d) icons [].

(** [sorted(l, key=...)] with a text as key: a stable sort, in which each
    element is put before the first later one whose key is not smaller.
    [sorted(by_section.items())] compares the pairs by their keys, which
    differ from one item to the next. *)
Fixpoint insert_by {A : Type} (key : A -> string) (x : A) (l : list A) : list A :=
  match l with
  | [] => [x]
  | y :: l' => if String.leb (key x) (key y) then x :: l
               else y :: insert_by key x l'
  end.

Definition sorted_by {A : Type} (key : A -> string) (l : list A) : list A :=
  fold_right (insert_by key) [] l.

(** The five lines of an icon in the verbose listing. *)
Definition verbose_lines (icon : IconInfo) : list string :=
  let variant := if is_outlined icon then "outlined" else "filled" in
  ["  " ++ name icon;
   "    Node ID: " ++ node_id icon;
   "    Section: " ++ section icon;
   "    Variant: " ++ variant;
   ""].

(** The line of an icon in the listing by section. *)
Definition item_line (icon : IconInfo) : string :=
  let variant := if is_outlined icon then " (outlined)" else "" in
  "  - " ++ name icon ++ variant.

(** The heading of a section and the lines of its icons, sorted by name. *)
Definition section_lines (item : string * list IconInfo) : list string :=
  let '(heading, section_icons) := item in
  (newline ++ "## " ++ heading) :: map item_line (sorted_by name section_icons).

(** The list [lines] at the end of the function. *)
Definition format_lines (icons : list IconInfo) (verbose : bool) : list string :=
  if verbose then flat_map verbose_lines icons
  else flat_map section_lines
         (sorted_by (fun item => fst item) (by_section icons)).

Definition format_icon_list (icons : list IconInfo) (verbose : bool) : string :=
  String.concat newline (format_lines icons verbose).

(* ================================================================= *)
(** ** Vocabulary of the properties *)

(** The tree of the specification: a page named Icons with one component
    named icon-home, of identifier 1:1. *)
Definition icons_page : json :=
  JObj [("type", JStr "PAGE"); ("name", JStr "Icons");
        ("children",
         JArr [JObj [("type", JStr "COMPONENT"); ("name", JStr "icon-home");
                     ("id", JStr "1:1")]])].

(** The name of the output file in a result of [process_icon_file]. *)
Definition output_name (r : error + (string * string)) : option string :=
  match r with
  | inl _ => None
  | inr (_, n) => Some n
  end.

(** The test of the loop of [determine_variant]: one of its patterns is
    found in the lower-cased name. *)
Definition matches_outlined (name : string) : bool :=
  existsb (fun pattern => search IGNORECASE pattern (lower name)) outlined_patterns.

(** A page named Nav followed by one component named icon-home. *)
Definition page_and_component : string :=
  "<PAGE " ++ attribute_text "name" "Nav" ++ " " ++ attribute_text "id" "0:1" ++ ">"
  ++ "<COMPONENT " ++ attribute_text "name" "icon-home" ++ " "
  ++ attribute_text "id" "1:1" ++ "/>".

(** One component named icon-home, before any section. *)
Definition lone_component : string :=
  "<COMPONENT name=" ++ q ++ "icon-home" ++ q ++ " id=" ++ q ++ "1:1" ++ q ++ "/>".

(** The decoded value is an object (a Python [dict]). *)
Definition is_object (v : json) : bool :=
  match v with
  | JObj _ => true
  | _ => false
  end.


(** Every character of [s] passes the test [p]. *)
Fixpoint all_chars (p : ascii -> bool) (s : string) : bool :=
  match s with
  | EmptyString => true
  | String c s' => p c && all_chars p s'
  end.

Definition not_upper (c : ascii) : bool := negb (is_upper c).

(** The pattern has no negated set. *)
Fixpoint positive (r : regex) : bool :=
  match r with
  | Set_ neg _ => negb neg
  | Seq r1 r2 | Alt r1 r2 => positive r1 && positive r2
  | Star _ r' | Grp _ r' => positive r'
  | _ => true
  end.

(** [k'] succeeds wherever [k] does. *)
Definition follows (k k' : mstate -> option mstate) : Prop :=
  forall st, k st <> None -> k' st <> None.

(** What follows the delimiter in the four trailing patterns of both
    functions. *)
Definition outlined_tails : list regex :=
  [ Cat [Lit "outline"; Opt (Chr "d"%char); Eos];
    Cat [Lit "outline"; Eos];
    Cat [Lit "line"; Eos];
    Cat [Lit "stroke"; Eos] ].

(** Two texts that differ at a position both have. *)
Fixpoint clash (a b : string) : bool :=
  match a, b with
  | String x a', String y b' => negb (x =? y)%char || clash a' b'
  | _, _ => false
  end.

(** No occurrence of [p] can begin inside [repl], and no proper end of
    [p] can begin [repl]: putting [repl] into a text then creates no
    occurrence of [p]. *)
Definition apart (p repl : string) : bool :=
  forallb (fun j => clash (skipn j p) repl) (seq 0 (String.length p)) &&
  forallb (fun j => clash p (skipn j repl)) (seq 0 (String.length repl)).




(** A root tag whose name is followed by a line feed, with an [id] as
    its first attribute. *)
Definition svg_on_two_lines : string :=
  "<svg" ++ newline ++ attribute_text "id" "icon" ++ " "
         ++ attribute_text "viewBox" "0 0 24 24" ++ "></svg>".





(** An icon with a width to rewrite, an attribute and an [id] to remove,
    and white space between its tags. *)
Definition plain_icon : string :=
  "<svg " ++ attribute_text "width" "32" ++ " " ++ attribute_text "data-name" "x"
          ++ ">" ++ newline ++ "  <path " ++ attribute_text "id" "a" ++ "/>"
          ++ newline ++ "</svg>" ++ newline.

(** The scan of a text in which nothing matches. *)
Fixpoint keeps (s : string) : list piece :=
  match s with
  | EmptyString => []
  | String c s' => Keep c :: keeps s'
  end.

(** Letters and digits. *)
Definition is_alnum (c : ascii) : bool := is_alpha c || is_digit c.

(** The text begins with an upper-case letter. *)
Definition starts_upper (s : string) : bool :=
  match s with
  | EmptyString => false
  | String c _ => is_upper c
  end.

(** A space put between a lower-case letter and the upper-case letter
    that follows it. *)
Fixpoint spaced (s : string) : string :=
  match s with
  | EmptyString => EmptyString
  | String c s' =>
      String c (if is_lower c && starts_upper s'
                then String " " (spaced s') else spaced s')
  end.

(** The last character of the text made of [c] followed by [s]. *)
Fixpoint last_char (c : ascii) (s : string) : ascii :=
  match s with
  | EmptyString => c
  | String x s' => last_char x s'
  end.

(** A token of letters and digits, of two characters at least, that
    begins and ends with a letter. *)
Definition plain_word (w : string) : bool :=
  match w with
  | String c (String x tail) =>
      is_alpha c && all_chars is_alnum (String x tail) && is_alpha (last_char x tail)
  | _ => false
  end.

Definition lower_or_digit (c : ascii) : bool := is_lower c || is_digit c.

(** The shape of a plain word once capitalised: an upper-case letter, then
    lower-case letters and digits, the last one a letter. *)
Definition capital_word (t : string) : bool :=
  match t with
  | String u (String x tail) =>
      is_upper u && all_chars lower_or_digit (String x tail) && is_lower (last_char x tail)
  | _ => false
  end.

(** Words put one after the other, with a space between two of them. *)
Fixpoint unwords (ts : list string) : string :=
  match ts with
  | [] => EmptyString
  | [t] => t
  | t :: ts' => t ++ String " " (unwords ts')
  end.

(** The delimiters of names: hyphen, underscore and white space. *)
Definition is_delimiter (c : ascii) : bool :=
  (c =? "-")%char || (c =? "_")%char || is_space c.

(** The text does not begin, or does not end, with a character passing
    the test [p]. *)
Definition starts_ok (p : ascii -> bool) (s : string) : bool :=
  match s with
  | EmptyString => true
  | String c _ => negb (p c)
  end.

Definition ends_ok (p : ascii -> bool) (s : string) : bool :=
  match s with
  | EmptyString => true
  | String c t => negb (p (last_char c t))
  end.

(** The character [c] is a character of [s], up to the case of letters. *)
Fixpoint case_variant_in (s : string) (c : ascii) : bool :=
  match s with
  | EmptyString => false
  | String x s' => (lower_char x =? lower_char c)%char || case_variant_in s' c
  end.

(** The test [p] on the characters kept by a scan. *)
Definition kept (p : ascii -> bool) (x : piece) : Prop :=
  match x with
  | Keep c => p c = true
  | Hit _ _ => True
  end.

(** The loops of [parse_json_metadata] over the children of a node, as
    functions of their own. *)
Fixpoint extend_icons (cs : list json) (path section : string)
  : outcome (list IconInfo) :=
  match cs with
  | [] => Ok []
  | child :: cs' =>
      found <- parse_json_metadata child path section ;;
      more <- extend_icons cs' path section ;;
      Ok (found ++ more)%list
  end.

Fixpoint children_icons (d : list (string * json)) (path section : string)
  : outcome (list IconInfo) :=
  match d with
  | [] => Ok []
  | (k, v) :: d' =>
      if String.eqb k "children"
      then match v with
           | JArr items => extend_icons items path section
           | JStr _ | JObj _ => Ok []
           | JNull | JBool _ | JNum _ => Raise TypeError
           end
      else children_icons d' path section
  end.



(** The path [p] lies under the path [prefix]. *)
Definition under (prefix p : string) : Prop :=
  match prefix with
  | EmptyString => True
  | _ => String.prefix (prefix ++ "/") p = true
  end.

(** Texts in strictly ascending order. *)
Fixpoint ascending (l : list string) : bool :=
  match l with
  | x :: (y :: _) as l' => String.ltb x y && ascending l'
  | _ => true
  end.

(** What tree extraction keeps true of a record, when it starts from the
    path [start]: the path ends with the name, it lies under [start], and
    the flag is the outlined test of the name. *)
Definition tree_record (start : string) (r : IconInfo) : Prop :=
  (path r = name r \/ exists pre, path r = pre ++ "/" ++ name r) /\
  under start (path r) /\
  is_outlined r = check_outlined_variant (name r).

(** The last character of a text, when it has one. *)
Definition last_of (s : string) : option ascii :=
  match s with
  | EmptyString => None
  | String c t => Some (last_char c t)
  end.

(** The pattern has a group numbered [n]. *)
Fixpoint mentions (n : nat) (r : regex) : bool :=
  match r with
  | Seq r1 r2 | Alt r1 r2 => mentions n r1 || mentions n r2
  | Star _ r' => mentions n r'
  | Grp m r' => (m =? n) || mentions n r'
  | _ => false
  end.

(** The result of a match attempt is the result of its continuation on a
    state that is not before the state it started from. *)
Definition forward (body : mstate -> (mstate -> option mstate) -> option mstate)
  : Prop :=
  forall st k x, body st k = Some x ->
                 exists st', pos st <= pos st' /\ k st' = Some x.

(** A match attempt that goes forward and leaves the group [n] as it
    found it. *)
Definition keeping (n : nat)
  (body : mstate -> (mstate -> option mstate) -> option mstate)
  : Prop :=
  forall st k x, body st k = Some x ->
                 exists st', pos st <= pos st' /\
                             group n (caps st') = group n (caps st) /\
                             k st' = Some x.

(** A continuation that accepts a state returns it. *)
Definition returns_state (k : mstate -> option mstate) : Prop :=
  forall st x, k st = Some x -> x = st.

(** Texts in ascending order, repetitions allowed. *)
Fixpoint nondescending (l : list string) : bool :=
  match l with
  | x :: (y :: _) as l' => String.leb x y && nondescending l'
  | _ => true
  end.

(** The lines of a group of the listing by section: its heading, then one
    line for each of its icons, in the order of the group. *)
Definition listing (g : string * list IconInfo) : list string :=
  (newline ++ "## " ++ fst g) :: map item_line (snd g).

(** A group of the listing by section is in order: it is not empty, its
    icons are those filed under its heading, and their names ascend. *)
Definition filed (g : string * list IconInfo) : Prop :=
  snd g <> [] /\
  Forall (fun icon => section_or_default icon = fst g) (snd g) /\
  nondescending (map name (snd g)) = true.

(* ================================================================= *)
(** ** Properties *)

(** *** Tree extraction on the page of the specification *)

(** C8.  Tree extraction of the page Icons holding the single component
    icon-home (identifier 1:1), from the empty path and section, yields
    exactly one record: section Icons, path Icons/icon-home, not
    outlined. *)
Theorem parse_json_metadata_icons_page :
  parse_json_metadata icons_page "" "" =
  Ok [mkIconInfo "icon-home" "1:1" "Icons" false "Icons/icon-home"].
Proof. vm_compute. reflexivity. Qed.

(** *** The name of the output file *)

Lemma determine_variant_Home_Outlined :
  determine_variant "Home-Outlined" = ("Home", true).
Proof. vm_compute. reflexivity. Qed.

Lemma to_pascal_case_Home : to_pascal_case "Home" = "Home".
Proof. vm_compute. reflexivity. Qed.

(** C3, as stated, fails: on a valid document the stem Home-Outlined does
    not give the name Home.svg. *)
Lemma process_icon_file_not_Home_svg :
  contains "<svg" (lower "<svg></svg>") = true /\
  output_name (process_icon_file "<svg></svg>" "Home-Outlined" None)
  <> Some "Home.svg".
Proof. split; vm_compute; [reflexivity | discriminate]. Qed.

(** C3, amended.  On every valid document, the stem Home-Outlined without
    override gives the name HomeOutlined.svg: the variant is split off the
    stem, the base Home is canonicalised, and the suffix Outlined is put
    back for the detected variant. *)
Theorem process_icon_file_Home_Outlined (content : string) :
  contains "<svg" (lower content) = true ->
  process_icon_file content "Home-Outlined" None =
  inr (optimize_svg content, "HomeOutlined.svg").
Proof.
  intros Hvalid. unfold process_icon_file.
  rewrite Hvalid, determine_variant_Home_Outlined, to_pascal_case_Home.
  reflexivity.
Qed.

Lemma process_icon_file_Home_Outlined_witness :
  contains "<svg" (lower "<svg></svg>") = true /\
  process_icon_file "<svg></svg>" "Home-Outlined" None =
  inr (optimize_svg "<svg></svg>", "HomeOutlined.svg").
Proof.
  split; [vm_compute; reflexivity|].
  apply (process_icon_file_Home_Outlined "<svg></svg>").
  vm_compute. reflexivity.
Defined.

(** *** Names that match no outlined pattern *)

Lemma first_variant_spec (patterns : list regex) (lower_name name : string) :
  first_variant patterns lower_name name =
  match find (fun pattern => search IGNORECASE pattern lower_name) patterns with
  | Some pattern => (sub IGNORECASE pattern [] name, true)
  | None => (name, false)
  end.
Proof.
  induction patterns as [|pattern patterns IH]; simpl; [reflexivity|].
  destruct (search IGNORECASE pattern lower_name); [reflexivity | exact IH].
Qed.

Lemma find_none_existsb {A : Type} (f : A -> bool) (l : list A) :
  existsb f l = false -> find f l = None.
Proof.
  induction l as [|a l IH]; simpl; [reflexivity|].
  destruct (f a); simpl; [discriminate | exact IH].
Qed.

Lemma find_some_existsb {A : Type} (f : A -> bool) (l : list A) :
  existsb f l = true -> exists a, find f l = Some a.
Proof.
  induction l as [|a l IH]; simpl; [discriminate|].
  destruct (f a); simpl; [exists a; reflexivity | exact IH].
Qed.

(** The flag of [determine_variant] says whether a pattern was found. *)
Lemma determine_variant_flag (name : string) :
  snd (determine_variant name) = matches_outlined name.
Proof.
  unfold determine_variant, matches_outlined.
  rewrite first_variant_spec.
  destruct (existsb (fun pattern => search IGNORECASE pattern (lower name))
              outlined_patterns) eqn:E.
  - destruct (find_some_existsb _ _ E) as [a Ha]. rewrite Ha. reflexivity.
  - rewrite (find_none_existsb _ _ E). reflexivity.
Qed.

(** C5, as stated, fails: -home matches no outlined pattern and is not
    returned unchanged. *)
Lemma determine_variant_changes_unmatched_name :
  matches_outlined "-home" = false /\
  determine_variant "-home" <> ("-home", false).
Proof. split; vm_compute; [reflexivity | discriminate]. Qed.

(** C5, amended.  For every name matching none of the outlined patterns,
    [determine_variant] returns the name with its leading and trailing
    hyphens and underscores stripped, and the flag false. *)
Theorem determine_variant_unmatched (name : string) :
  matches_outlined name = false ->
  determine_variant name = (strip_chars "-_" name, false).
Proof.
  unfold matches_outlined, determine_variant. intros Hnone.
  rewrite first_variant_spec, (find_none_existsb _ _ Hnone). reflexivity.
Qed.

Lemma determine_variant_unmatched_witness :
  matches_outlined "icon_home" = false /\
  determine_variant "icon_home" = (strip_chars "-_" "icon_home", false).
Proof.
  split; [vm_compute; reflexivity|].
  apply (determine_variant_unmatched "icon_home"). vm_compute. reflexivity.
Defined.

(** *** The paths of tag-based extraction *)

(** C6, as stated, fails: with an empty current section the path is not
    the bare name. *)
Lemma parse_xml_metadata_leading_slash :
  parse_xml_metadata lone_component =
  [mkIconInfo "icon-home" "1:1" "" false "/icon-home"] /\
  "/icon-home" <> "icon-home".
Proof. split; [vm_compute; reflexivity | discriminate]. Qed.

Lemma xml_loop_path (matches : list (list (nat * string))) :
  forall (current_section : string) (r : IconInfo),
    In r (xml_loop current_section matches) ->
    path r = section r ++ "/" ++ name r.
Proof.
  induction matches as [|m matches IH]; intros current_section r Hin.
  - destruct Hin.
  - cbn [xml_loop] in Hin.
    destruct (mem (upper (group 1 m)) ["FRAME"; "PAGE"; "SECTION"]).
    + exact (IH _ _ Hin).
    + destruct (is_icon_node (group 2 m) (group 1 m)).
      * destruct Hin as [<- | Hin]; [reflexivity | exact (IH _ _ Hin)].
      * exact (IH _ _ Hin).
Qed.

(** C6, amended.  Every record emitted by tag-based extraction has its
    path equal to its section, a slash and its name; with an empty section
    the path is therefore the name behind a leading slash. *)
Theorem parse_xml_metadata_path (content : string) (r : IconInfo) :
  In r (parse_xml_metadata content) ->
  path r = section r ++ "/" ++ name r /\
  (section r = "" -> path r = String "/" (name r)).
Proof.
  intros Hin. pose proof (xml_loop_path _ _ _ Hin) as Hpath.
  split; [exact Hpath|]. intros Hempty. rewrite Hpath, Hempty. reflexivity.
Qed.

Lemma parse_xml_metadata_path_witness :
  In (mkIconInfo "icon-home" "1:1" "Nav" false "Nav/icon-home")
     (parse_xml_metadata page_and_component) /\
  path (mkIconInfo "icon-home" "1:1" "Nav" false "Nav/icon-home") =
  "Nav" ++ "/" ++ "icon-home".
Proof.
  assert (Hin : In (mkIconInfo "icon-home" "1:1" "Nav" false "Nav/icon-home")
                   (parse_xml_metadata page_and_component))
    by (vm_compute; left; reflexivity).
  split; [exact Hin|].
  exact (proj1 (parse_xml_metadata_path page_and_component _ Hin)).
Defined.

(** *** The dispatch between the two extractors *)






(** *** The casing of the tokens *)

Lemma lower_char_fixed (c : ascii) : lower_char c = c <-> is_upper c = false.
Proof.
  unfold lower_char. destruct (is_upper c) eqn:E; [|tauto].
  split; [|discriminate]. intros H. exfalso. revert E H.
  destruct c as [[] [] [] [] [] [] [] []]; vm_compute; congruence.
Qed.

Lemma lower_fixed (s : string) : lower s = s <-> all_chars not_upper s = true.
Proof.
  induction s as [|c s IH]; [simpl; tauto|].
  change (lower (String c s)) with (String (lower_char c) (lower s)).
  cbn [all_chars]. unfold not_upper at 1.
  rewrite andb_true_iff, negb_true_iff.
  pose proof (lower_char_fixed c) as Hc.
  split.
  - intros H. injection H as H1 H2. split; [apply Hc | apply IH]; assumption.
  - intros [H1 H2]. apply Hc in H1. apply IH in H2.
    rewrite H1, H2. reflexivity.
Qed.

(** C9, as stated, fails: the token ABC comes out as Abc. *)
Lemma to_pascal_case_lowers_the_tail :
  expanded_words "ABC" = ["ABC"] /\ to_pascal_case "ABC" = "Abc" /\
  skipn 1 (to_pascal_case "ABC") <> skipn 1 "ABC".
Proof.
  split; [|split]; vm_compute; [reflexivity | reflexivity | discriminate].
Qed.

(** C9, amended.  In [to_pascal_case] the output is the concatenation of
    the non-empty tokens, each with its first character upper-cased and
    every later character lower-cased; the characters after the first are
    those of the input token exactly when none of them is an upper-case
    letter. *)
Theorem to_pascal_case_tokens (name : string) :
  to_pascal_case name =
  join (map capitalize (filter nonempty (expanded_words name))) /\
  Forall (fun w =>
            match w with
            | EmptyString => capitalize w = EmptyString
            | String c tail =>
                capitalize w = String (upper_char c) (lower tail) /\
                (capitalize w = String (upper_char c) tail <->
                 all_chars not_upper tail = true)
            end)
         (expanded_words name).
Proof.
  split; [reflexivity|].
  apply Forall_forall. intros [|c tail] _; [reflexivity|].
  split; [reflexivity|]. cbn [capitalize]. rewrite <- lower_fixed.
  split; [intros H; injection H as H; exact H | intros ->; reflexivity].
Qed.

(** *** The matcher under [IGNORECASE]

    A pattern without negated set that matches somewhere without flag
    also matches there under [IGNORECASE]. *)

Lemma orelse_some (a b : option mstate) :
  orelse a b <> None <-> a <> None \/ b <> None.
Proof.
  destruct a as [x|]; simpl.
  - split; [left|]; congruence.
  - split; [right; assumption | intros [H | H]; congruence].
Qed.

Lemma case_cover (x : ascii) :
  lower_char x = x \/ upper_char (lower_char x) = x.
Proof.
  destruct x as [[] [] [] [] [] [] [] []]; vm_compute; auto.
Qed.

Lemma char_ok_ignorecase (c x : ascii) :
  char_ok no_flags c x = true -> char_ok IGNORECASE c x = true.
Proof.
  unfold char_ok; simpl. intros H. apply Ascii.eqb_eq in H. subst x.
  apply Ascii.eqb_refl.
Qed.

Lemma item_ok_ignorecase (x : ascii) (it : citem) :
  item_ok no_flags x it = true -> item_ok IGNORECASE x it = true.
Proof.
  destruct it as [c | lo hi | | |]; simpl; auto using char_ok_ignorecase.
  intros H. apply orb_true_iff.
  destruct (case_cover x) as [E | E]; rewrite E; auto.
Qed.

Lemma set_ok_ignorecase (items : list citem) (x : ascii) :
  set_ok no_flags false items x = true -> set_ok IGNORECASE false items x = true.
Proof.
  unfold set_ok; simpl. rewrite !existsb_exists.
  intros [it [Hin Hok]]. exists it. auto using item_ok_ignorecase.
Qed.

Lemma one_follows (p p' : ascii -> bool) (st : mstate)
  (k k' : mstate -> option mstate) :
  (forall x, p x = true -> p' x = true) -> follows k k' ->
  one p st k <> None -> one p' st k' <> None.
Proof.
  intros Hp Hk. unfold one. destruct (rest st) as [|x s']; [congruence|].
  destruct (p x) eqn:E; [|congruence].
  rewrite (Hp _ E). apply Hk.
Qed.

Lemma star_loop_follows
  (body body' : mstate -> (mstate -> option mstate) -> option mstate)
  (greedy : bool) :
  (forall st k k', follows k k' -> body st k <> None -> body' st k' <> None) ->
  forall n st k k', follows k k' ->
    star_loop greedy body n st k <> None ->
    star_loop greedy body' n st k' <> None.
Proof.
  intros Hbody. induction n as [|n IH]; intros st k k' Hk; simpl.
  - apply Hk.
  - assert (Hagain : follows
              (fun st' => if pos st <? pos st' then star_loop greedy body n st' k else None)
              (fun st' => if pos st <? pos st' then star_loop greedy body' n st' k' else None)).
    { intros st'. destruct (pos st <? pos st'); [apply IH; exact Hk | congruence]. }
    destruct greedy; rewrite !orelse_some; intros [H | H].
    + left. exact (Hbody _ _ _ Hagain H).
    + right. exact (Hk _ H).
    + left. exact (Hk _ H).
    + right. exact (Hbody _ _ _ Hagain H).
Qed.

Lemma rmatch_ignorecase (r : regex) :
  positive r = true ->
  forall st k k', follows k k' ->
    rmatch no_flags r st k <> None -> rmatch IGNORECASE r st k' <> None.
Proof.
  induction r as [ | c | | neg items | r1 IH1 r2 IH2 | r1 IH1 r2 IH2
                 | g r IH | n r IH | | ]; simpl; intros Hpos st k k' Hk.
  - apply Hk.
  - apply one_follows; [apply char_ok_ignorecase | exact Hk].
  - apply one_follows; [auto | exact Hk].
  - apply negb_true_iff in Hpos. subst neg.
    apply one_follows; [apply set_ok_ignorecase | exact Hk].
  - apply andb_true_iff in Hpos. destruct Hpos as [H1 H2].
    apply IH1; [exact H1|]. intros st'. apply IH2; assumption.
  - apply andb_true_iff in Hpos. destruct Hpos as [H1 H2].
    rewrite !orelse_some. intros [H | H]; [left | right].
    + exact (IH1 H1 _ _ _ Hk H).
    + exact (IH2 H2 _ _ _ Hk H).
  - apply star_loop_follows; [|exact Hk]. intros st0 k0 k0'. apply IH. exact Hpos.
  - apply IH; [exact Hpos|]. intros st'. apply Hk.
  - destruct (pos st =? 0); [apply Hk | congruence].
  - destruct (at_end (rest st)); [apply Hk | congruence].
Qed.

Lemma match_at_some (fl : flags) (r : regex) (i : nat) (s : string) (adv : bool) :
  match_at fl r i s adv <> None <->
  rmatch fl r (MState i s [])
    (fun st' => if adv && (pos st' =? i) then None else Some st') <> None.
Proof.
  unfold match_at.
  destruct (rmatch fl r (MState i s []) _); split; congruence.
Qed.

(** An optional first piece accepts whatever the piece itself accepts. *)
Lemma rmatch_opt_head (fl : flags) (r tail : regex) (st : mstate)
  (k : mstate -> option mstate) :
  rmatch fl (Seq r tail) st k <> None ->
  rmatch fl (Seq (Opt r) tail) st k <> None.
Proof.
  simpl. intros H. apply orelse_some. left. exact H.
Qed.

Lemma search_from_follows (fl fl' : flags) (r r' : regex) :
  (forall i s, match_at fl r i s false <> None -> match_at fl' r' i s false <> None) ->
  forall s i, search_from fl r i s <> None -> search_from fl' r' i s <> None.
Proof.
  intros Hat. induction s as [|c s IH]; intros i; simpl.
  - destruct (match_at fl r i "" false) as [[n g]|] eqn:E; [|congruence].
    intros _. assert (H : match_at fl' r' i "" false <> None)
      by (apply Hat; congruence).
    destruct (match_at fl' r' i "" false) as [[n' g']|]; congruence.
  - destruct (match_at fl r i (String c s) false) as [[n g]|] eqn:E.
    + intros _. assert (H : match_at fl' r' i (String c s) false <> None)
        by (apply Hat; congruence).
      destruct (match_at fl' r' i (String c s) false) as [[n' g']|]; congruence.
    + intros H. destruct (match_at fl' r' i (String c s) false) as [[n' g']|];
        [congruence | exact (IH _ H)].
Qed.

Lemma search_delimiter_optional (r tail : regex) (s : string) :
  positive (Seq r tail) = true ->
  search no_flags (Seq r tail) s = true ->
  search IGNORECASE (Seq (Opt r) tail) s = true.
Proof.
  intros Hpos. unfold search.
  pose proof (@search_from_follows no_flags IGNORECASE (Seq r tail) (Seq (Opt r) tail)) as H.
  assert (Hat : forall i s0, match_at no_flags (Seq r tail) i s0 false <> None ->
                             match_at IGNORECASE (Seq (Opt r) tail) i s0 false <> None).
  { intros i s0. rewrite !match_at_some. intros Hm.
    apply rmatch_opt_head.
    eapply rmatch_ignorecase; [exact Hpos | | exact Hm].
    intros st' Hst'. exact Hst'. }
  specialize (H Hat s 0).
  destruct (search_from no_flags (Seq r tail) 0 s); [|discriminate].
  intros _. destruct (search_from IGNORECASE (Seq (Opt r) tail) 0 s);
    [reflexivity | exfalso; apply H; congruence].
Qed.

(** *** The two outlined tests *)

Lemma check_outlined_patterns_tails :
  check_outlined_patterns =
  (map (Seq delimiter) outlined_tails ++ [outline_prefix])%list.
Proof. reflexivity. Qed.

Lemma outlined_patterns_tails :
  outlined_patterns = map (Seq (Opt delimiter)) outlined_tails.
Proof. reflexivity. Qed.

Lemma suffix_found_optional (s : string) (tails : list regex) :
  forallb (fun tail => positive (Seq delimiter tail)) tails = true ->
  existsb (fun p => search no_flags p s) (map (Seq delimiter) tails) = true ->
  existsb (fun p => search IGNORECASE p s) (map (Seq (Opt delimiter)) tails) = true.
Proof.
  induction tails as [|tail tails IH]; [discriminate 2|].
  cbn [forallb map existsb]. rewrite andb_true_iff, !orb_true_iff.
  intros [Hpos Hall] [H | H].
  - left. apply search_delimiter_optional; assumption.
  - right. apply IH; assumption.
Qed.

(** C4, as stated, fails, both ways: a leading outline token is seen by
    [check_outlined_variant] only, and a trailing line without delimiter
    by [determine_variant] only. *)
Lemma outlined_tests_differ :
  check_outlined_variant "outline-home" = true /\
  snd (determine_variant "outline-home") = false /\
  check_outlined_variant "airline" = false /\
  snd (determine_variant "airline") = true.
Proof. split; [|split; [|split]]; vm_compute; reflexivity. Qed.

(** C4, amended.  The two functions use different pattern tables:
    [determine_variant] makes the delimiter before a trailing word
    optional and has no leading pattern.  Every name accepted by
    [check_outlined_variant] is flagged by [determine_variant] too, unless
    it is accepted by the leading outline pattern. *)
Theorem check_outlined_variant_determine_variant (name : string) :
  check_outlined_variant name = true ->
  snd (determine_variant name) = true \/
  search no_flags outline_prefix (lower name) = true.
Proof.
  unfold check_outlined_variant.
  rewrite check_outlined_patterns_tails, existsb_app, orb_true_iff.
  intros [H | H].
  - left. rewrite determine_variant_flag. unfold matches_outlined.
    rewrite outlined_patterns_tails.
    apply suffix_found_optional; [reflexivity | exact H].
  - right. simpl in H. rewrite orb_false_r in H. exact H.
Qed.

Lemma check_outlined_variant_determine_variant_witness :
  check_outlined_variant "home-line" = true /\
  (snd (determine_variant "home-line") = true \/
   search no_flags outline_prefix (lower "home-line") = true).
Proof.
  split; [vm_compute; reflexivity|].
  apply (check_outlined_variant_determine_variant "home-line").
  vm_compute. reflexivity.
Defined.

(** *** Texts and occurrences *)

Lemma append_empty (s : string) : s ++ "" = s.
Proof. induction s as [|c s IH]; simpl; [|rewrite IH]; reflexivity. Qed.

Lemma append_assoc (a b c : string) : (a ++ b) ++ c = a ++ (b ++ c).
Proof. induction a as [|x a IH]; simpl; [|rewrite IH]; reflexivity. Qed.


Lemma contains_cons (p : string) (c : ascii) (s : string) :
  contains p (String c s) = prefix p (String c s) || contains p s.
Proof. reflexivity. Qed.

Lemma contains_prefix (p s : string) : prefix p s = true -> contains p s = true.
Proof. intros H. destruct s; simpl in *; rewrite H; reflexivity. Qed.

Lemma contains_later (p : string) (c : ascii) (s : string) :
  contains p s = true -> contains p (String c s) = true.
Proof. intros H. rewrite contains_cons, H. apply orb_true_r. Qed.

Lemma contains_skipn (p : string) (k : nat) (s : string) :
  contains p (skipn k s) = true -> contains p s = true.
Proof.
  revert s. induction k as [|k IH]; intros [|c s]; simpl; auto.
  intros H. apply contains_later, IH, H.
Qed.

Lemma prefix_cons (a b : ascii) (p s : string) :
  prefix (String a p) (String b s) = true <-> a = b /\ prefix p s = true.
Proof.
  simpl. destruct (ascii_dec a b) as [E | E]; split; tauto || discriminate.
Qed.

(** [s.replace(old, new)] leaves a text without [old] as it is. *)
Lemma replace_absent (old new s : string) :
  contains old s = false -> replace old new s = s.
Proof.
  unfold replace. induction s as [|c s IH]; [reflexivity|].
  rewrite contains_cons, orb_false_iff. intros [Hp Hs].
  cbn [replace_from]. rewrite Hp, (IH Hs). reflexivity.
Qed.

Lemma clash_prefix (a b : string) :
  clash a b = true -> forall rest, prefix a (b ++ rest) = false.
Proof.
  revert b. induction a as [|x a IH]; intros [|y b]; simpl; try discriminate.
  intros H rest. destruct (ascii_dec x y) as [E | E]; [|reflexivity].
  subst y. rewrite Ascii.eqb_refl in H. simpl in H. exact (IH _ H rest).
Qed.

Lemma forallb_seq (f : nat -> bool) (n : nat) :
  forallb f (seq 0 n) = true -> forall j, j < n -> f j = true.
Proof.
  rewrite forallb_forall. intros H j Hj. apply H, in_seq. lia.
Qed.

Lemma contains_after (p : string) (repl rest : string) :
  (forall j, j < String.length repl -> clash p (skipn j repl) = true) ->
  contains p (repl ++ rest) = true -> contains p rest = true.
Proof.
  induction repl as [|y repl IH]; intros Hclash; [auto|].
  cbn [append]. rewrite contains_cons.
  change (String y (repl ++ rest)) with (String y repl ++ rest).
  rewrite (clash_prefix _ _ (Hclash 0 (Nat.lt_0_succ _))). simpl.
  apply IH. intros j Hj. apply (Hclash (S j)). simpl. lia.
Qed.

(** *** The scan *)

Section Scan.

Variable fl : flags.
Variable r : regex.


(** Where [re.search] finds nothing, [re.sub] changes nothing. *)
Lemma scan_unmatched (tmpl : list titem) (s : string) :
  forall i, search_from fl r i s = None ->
            join (map (render tmpl) (scan fl r i 0 s)) = s.
Proof.
  induction s as [|c s IH]; intros i; cbn [search_from scan].
  - destruct (match_at fl r i "" false) as [[n g]|]; [discriminate | reflexivity].
  - destruct (match_at fl r i (String c s) false) as [[n g]|]; [discriminate|].
    intros H. cbn [map join fold_right render append].
    fold (join (map (render tmpl) (scan fl r (S i) 0 s))).
    rewrite (IH _ H). reflexivity.
Qed.


Lemma sub_unmatched (tmpl : list titem) (s : string) :
  search fl r s = false -> sub fl r tmpl s = s.
Proof.
  unfold search, sub. intros H. apply scan_unmatched.
  destruct (search_from fl r 0 s); [discriminate | reflexivity].
Qed.


(** A scan from [s] begins with nothing, with the first character of
    [s] kept, or with a match. *)
Lemma scan_head (s : string) (i : nat) :
  (s = "" /\ scan fl r i 0 s = []) \/
  (exists c s', s = String c s' /\ scan fl r i 0 s = Keep c :: scan fl r (S i) 0 s') \/
  (exists t g ps, scan fl r i 0 s = Hit t g :: ps).
Proof.
  destruct s as [|c s]; cbn [scan].
  - destruct (match_at fl r i "" false) as [[[|n] g]|]; eauto 6.
  - destruct (match_at fl r i (String c s) false) as [[[|n] g]|]; eauto 8.
Qed.

Section Constant.

Variable p repl : string.
Hypothesis Hapart : apart p repl = true.

Let out (ps : list piece) : string := join (map (render [TLit repl]) ps).

Lemma out_keep (c : ascii) (ps : list piece) : out (Keep c :: ps) = String c (out ps).
Proof. reflexivity. Qed.

Lemma out_hit (t : string) (g : list (nat * string)) (ps : list piece) :
  out (Hit t g :: ps) = repl ++ out ps.
Proof.
  unfold out. cbn [map join fold_right render expand]. rewrite append_empty.
  reflexivity.
Qed.

Lemma apart_inside (j : nat) :
  j < String.length repl -> clash p (skipn j repl) = true.
Proof.
  unfold apart in Hapart. apply andb_true_iff in Hapart.
  apply (forallb_seq _ (proj2 Hapart)).
Qed.

Lemma apart_ends (j : nat) :
  j < String.length p -> clash (skipn j p) repl = true.
Proof.
  unfold apart in Hapart. apply andb_true_iff in Hapart.
  apply (forallb_seq _ (proj1 Hapart)).
Qed.

(** An end of [p] read at the head of the output was read in the text. *)
Lemma prefix_out (q : string) :
  (forall j, j < String.length q -> clash (skipn j q) repl = true) ->
  forall s i, prefix q (out (scan fl r i 0 s)) = true -> prefix q s = true.
Proof.
  induction q as [|a q IH]; intros Hq s i; [destruct s; reflexivity|].
  destruct (scan_head s i) as [[-> ->] | [(c & s' & -> & ->) | (t & g & ps & ->)]].
  - discriminate.
  - rewrite out_keep, !prefix_cons. intros [-> H]. split; [reflexivity|].
    apply (IH (fun j Hj => Hq (S j) (proj1 (Nat.succ_lt_mono _ _) Hj)) _ _ H).
  - rewrite out_hit, (clash_prefix _ _ (Hq 0 (Nat.lt_0_succ _))). discriminate.
Qed.

Lemma prefix_out_keep (q : string) (c : ascii) (s : string) (i : nat) :
  (forall j, j < String.length q -> clash (skipn j q) repl = true) ->
  prefix q (String c (out (scan fl r (S i) 0 s))) = true ->
  prefix q (String c s) = true.
Proof.
  destruct q as [|a q]; intros Hq; [reflexivity|].
  rewrite !prefix_cons. intros [-> H]. split; [reflexivity|].
  apply (prefix_out q (fun j Hj => Hq (S j) (proj1 (Nat.succ_lt_mono _ _) Hj)) _ _ H).
Qed.

(** [re.sub] with the constant replacement [repl] creates no occurrence
    of [p]. *)
Lemma scan_creates_nothing (s : string) :
  forall i k, contains p (out (scan fl r i k s)) = true -> contains p s = true.
Proof.
  induction s as [|c s IH]; intros i k.
  - destruct k as [|k]; cbn [scan]; [|auto].
    destruct (match_at fl r i "" false) as [[[|n] g]|]; auto;
      rewrite out_hit; apply contains_after, apart_inside.
  - destruct k as [|k]; cbn [scan];
      [|intros H; apply contains_later, (IH _ _ H)].
    assert (Hkeep : contains p (out (Keep c :: scan fl r (S i) 0 s)) = true ->
                    contains p (String c s) = true).
    { rewrite out_keep, contains_cons, orb_true_iff. intros [H | H].
      - apply contains_prefix, (prefix_out_keep p c s i apart_ends H).
      - apply contains_later, (IH _ _ H). }
    destruct (match_at fl r i (String c s) false) as [[[|n] g]|].
    + rewrite out_hit. intros H. apply contains_after in H; [|apply apart_inside].
      destruct (match_at fl r i (String c s) true) as [[[|n'] g']|]; auto.
      rewrite out_hit in H. apply contains_after in H; [|apply apart_inside].
      apply contains_later, (IH _ _ H).
    + rewrite out_hit. intros H. apply contains_after in H; [|apply apart_inside].
      apply contains_later, (IH _ _ H).
    + exact Hkeep.
Qed.

Lemma sub_creates_nothing (s : string) :
  contains p s = false -> contains p (sub fl r [TLit repl] s) = false.
Proof.
  intros H. destruct (contains p (sub fl r [TLit repl] s)) eqn:E; [|reflexivity].
  rewrite (scan_creates_nothing _ _ _ E) in H. discriminate.
Qed.

End Constant.

End Scan.

(** *** The injections of the normaliser *)

Lemma force_viewBox_creates_nothing (d : string) :
  contains "<svg " d = false -> contains "<svg " (force_viewBox d) = false.
Proof.
  intros H. unfold force_viewBox. destruct (contains "viewBox" d).
  - apply sub_creates_nothing; [reflexivity | exact H].
  - rewrite (replace_absent _ _ _ H). exact H.
Qed.

Lemma force_width_creates_nothing (d : string) :
  contains "<svg " d = false -> contains "<svg " (force_width d) = false.
Proof.
  intros H. unfold force_width. destruct (contains "width=" d).
  - apply sub_creates_nothing; [reflexivity | exact H].
  - rewrite (replace_absent _ _ _ H). exact H.
Qed.

Lemma force_height_creates_nothing (d : string) :
  contains "<svg " d = false -> contains "<svg " (force_height d) = false.
Proof.
  intros H. unfold force_height. destruct (contains "height=" d).
  - apply sub_creates_nothing; [reflexivity | exact H].
  - rewrite (replace_absent _ _ _ H). exact H.
Qed.

(** C10, as stated, fails.  For the default fill: the input has no [<svg]
    followed by a space, and the fill is injected all the same, because
    the removal of the [id] leaves one.  For the absence in the output: a
    removal can join two parts of a text into the name of a declaration
    that no step injected. *)
Lemma optimize_svg_fill_after_removal :
  (contains "<svg " svg_on_two_lines = false /\
   contains "fill=" svg_on_two_lines = false /\
   optimize_svg svg_on_two_lines =
   "<svg " ++ attribute_text "fill" "currentColor" ++ " "
           ++ attribute_text "viewBox" "0 0 24 24" ++ "></svg>") /\
  (contains "<svg " "<svg>wid<!---->th=1</svg>" = false /\
   contains "width=" "<svg>wid<!---->th=1</svg>" = false /\
   optimize_svg "<svg>wid<!---->th=1</svg>" = "<svg>width=1</svg>").
Proof. split; (split; [|split]); vm_compute; reflexivity. Qed.

(** C10, amended.  Every injection replaces the literal [<svg] followed
    by a space.  For every input without that literal, the three canvas
    steps inject nothing: each one, when the name it looks for is missing
    from the text it receives, returns that text unchanged, and the
    literal is still absent after the three steps.  The default fill is
    decided on the text left by the removals: it is not injected when that
    text has no such literal either. *)
Theorem injections_need_svg_space (d : string) :
  contains "<svg " d = false ->
  (contains "viewBox" d = false -> force_viewBox d = d) /\
  (contains "width=" (force_viewBox d) = false ->
   force_width (force_viewBox d) = force_viewBox d) /\
  (contains "height=" (force_width (force_viewBox d)) = false ->
   force_height (force_width (force_viewBox d)) = force_width (force_viewBox d)) /\
  contains "<svg " (force_height (force_width (force_viewBox d))) = false /\
  (contains "<svg " (clean (force_height (force_width (force_viewBox d)))) = false ->
   optimize_svg d = clean (force_height (force_width (force_viewBox d)))).
Proof.
  intros H.
  pose proof (force_viewBox_creates_nothing _ H) as H1.
  pose proof (force_width_creates_nothing _ H1) as H2.
  pose proof (force_height_creates_nothing _ H2) as H3.
  repeat split.
  - intros Habsent. unfold force_viewBox. rewrite Habsent. apply replace_absent, H.
  - intros Habsent. unfold force_width at 1. rewrite Habsent. apply replace_absent, H1.
  - intros Habsent. unfold force_height at 1. rewrite Habsent. apply replace_absent, H2.
  - exact H3.
  - intros Hclean. unfold optimize_svg, default_fill.
    destruct (negb (contains "fill=" _)); [apply replace_absent, Hclean | reflexivity].
Qed.

Lemma injections_need_svg_space_witness :
  contains "<svg " "<svg><path/></svg>" = false /\
  force_viewBox "<svg><path/></svg>" = "<svg><path/></svg>" /\
  optimize_svg "<svg><path/></svg>" = "<svg><path/></svg>".
Proof.
  assert (H : contains "<svg " "<svg><path/></svg>" = false)
    by (vm_compute; reflexivity).
  destruct (injections_need_svg_space "<svg><path/></svg>" H)
    as (H1 & _ & _ & _ & H5).
  split; [exact H|]. split.
  - apply H1. vm_compute. reflexivity.
  - rewrite H5; vm_compute; reflexivity.
Defined.

(** *** Fixed points of the normaliser *)






(** *** Patterns that begin with one character *)

Lemma scan_keeps (fl : flags) (r : regex) (s : string) :
  forall i, search_from fl r i s = None -> scan fl r i 0 s = keeps s.
Proof.
  induction s as [|c s IH]; intros i; cbn [search_from scan keeps].
  - destruct (match_at fl r i "" false) as [[n g]|]; [discriminate | reflexivity].
  - destruct (match_at fl r i (String c s) false) as [[n g]|]; [discriminate|].
    intros H. rewrite (IH _ H). reflexivity.
Qed.

(** A pattern that begins with a character test matches nowhere in a
    text none of whose characters passes the test. *)
Lemma one_refused (p : ascii -> bool) (i : nat) (s : string)
  (k : mstate -> option mstate) :
  all_chars (fun x => negb (p x)) s = true ->
  one p (MState i s []) k = None.
Proof.
  unfold one. destruct s as [|x s]; [reflexivity|]. cbn [rest all_chars].
  rewrite andb_true_iff, negb_true_iff. intros [-> _]. reflexivity.
Qed.

Lemma all_chars_tail (p : ascii -> bool) (c : ascii) (s : string) :
  all_chars p (String c s) = true -> all_chars p s = true.
Proof. cbn [all_chars]. rewrite andb_true_iff. tauto. Qed.

Lemma search_from_refused (fl : flags) (r : regex) (p : ascii -> bool) :
  (forall i s k, exists k', rmatch fl r (MState i s []) k = one p (MState i s []) k') ->
  forall s i, all_chars (fun x => negb (p x)) s = true ->
              search_from fl r i s = None.
Proof.
  intros Hhead.
  assert (Hat : forall s i, all_chars (fun x => negb (p x)) s = true ->
                            match_at fl r i s false = None).
  { intros s i Hall. unfold match_at.
    destruct (Hhead i s (fun st' => if false && (pos st' =? i) then None else Some st'))
      as [k' ->].
    rewrite (one_refused _ _ _ _ Hall). reflexivity. }
  induction s as [|c s IH]; intros i Hall; cbn [search_from];
    rewrite (Hat _ _ Hall); [reflexivity|].
  apply IH, (all_chars_tail _ _ _ Hall).
Qed.

Lemma alnum_not_dot (s : string) :
  all_chars is_alnum s = true ->
  all_chars (fun x => negb (char_ok IGNORECASE "."%char x)) s = true.
Proof.
  induction s as [|c s IH]; [reflexivity|]. cbn [all_chars].
  rewrite !andb_true_iff. intros [Hc Hs]. split; [|exact (IH Hs)].
  revert Hc. clear. destruct c as [[] [] [] [] [] [] [] []]; vm_compute; congruence.
Qed.

Lemma alnum_not_delimiter (s : string) :
  all_chars is_alnum s = true ->
  all_chars (fun x => negb (set_ok no_flags false
                              [CChar "-"%char; CChar "_"%char; CSpace] x)) s = true.
Proof.
  induction s as [|c s IH]; [reflexivity|]. cbn [all_chars].
  rewrite !andb_true_iff. intros [Hc Hs]. split; [|exact (IH Hs)].
  revert Hc. clear. destruct c as [[] [] [] [] [] [] [] []]; vm_compute; congruence.
Qed.

(** A text of letters and digits has no extension to strip and no
    delimiter to split on. *)
Lemma sub_extension_alnum (s : string) :
  all_chars is_alnum s = true -> sub IGNORECASE extension_re [] s = s.
Proof.
  intros H. apply sub_unmatched. unfold search.
  rewrite (@search_from_refused IGNORECASE extension_re (char_ok IGNORECASE "."%char));
    [reflexivity | intros i s0 k; eexists; reflexivity | apply alnum_not_dot, H].
Qed.

Lemma rev_string_twice (s : string) :
  forall acc b, rev_string b (rev_string acc s) = rev_string (s ++ b) acc.
Proof.
  induction s as [|c s IH]; intros acc b; [reflexivity|].
  cbn [rev_string append]. rewrite IH. reflexivity.
Qed.

Lemma split_pieces_keeps (s : string) :
  forall cur, split_pieces cur (keeps s) = [rev_string "" (rev_string cur s)].
Proof.
  induction s as [|c s IH]; intros cur; [reflexivity|].
  cbn [keeps split_pieces rev_string]. apply IH.
Qed.

Lemma split_delimiters_alnum (s : string) :
  all_chars is_alnum s = true -> split no_flags delimiters_re s = [s].
Proof.
  intros H. unfold split.
  rewrite (@scan_keeps no_flags delimiters_re s 0).
  - rewrite split_pieces_keeps, rev_string_twice, append_empty. reflexivity.
  - apply (@search_from_refused no_flags delimiters_re
             (set_ok no_flags false [CChar "-"%char; CChar "_"%char; CSpace]));
      [intros i s0 k; eexists; reflexivity | apply alnum_not_delimiter, H].
Qed.

(** *** The camel-case step *)

Lemma set_ok_range (lo hi x : ascii) :
  set_ok no_flags false [CRange lo hi] x = in_range lo hi x.
Proof.
  unfold set_ok. cbn. destruct (in_range lo hi x); reflexivity.
Qed.

Lemma upper_not_lower (c : ascii) : is_upper c = true -> is_lower c = false.
Proof.
  destruct c as [[] [] [] [] [] [] [] []]; vm_compute; congruence.
Qed.

Lemma match_at_camel (i : nat) (s : string) :
  match_at no_flags camel_re i s false =
  match s with
  | String c1 (String c2 _) =>
      if is_lower c1 && is_upper c2
      then Some (2, [(1, String c1 ""); (2, String c2 "")])
      else None
  | _ => None
  end.
Proof.
  unfold match_at, camel_re. cbn [rmatch].
  destruct s as [|c1 [|c2 s2]]; unfold one; cbn [rest]; [reflexivity | |].
  - rewrite set_ok_range. fold (is_lower c1). destruct (is_lower c1); reflexivity.
  - rewrite set_ok_range. fold (is_lower c1). destruct (is_lower c1); [|reflexivity].
    cbn [step rest pos caps]. rewrite set_ok_range. fold (is_upper c2).
    destruct (is_upper c2); [|reflexivity].
    cbn [andb step rest pos caps].
    replace (S i - i) with 1 by lia. replace (S (S i) - S i) with 1 by lia.
    replace (S (S i) - i) with 2 by lia. reflexivity.
Qed.

Lemma scan_camel_spaced (n : nat) :
  forall s i, String.length s <= n ->
    join (map (render camel_tmpl) (scan no_flags camel_re i 0 s)) = spaced s.
Proof.
  induction n as [|n IH]; intros s i Hlen.
  - destruct s; [|simpl in Hlen; lia]. cbn [scan]. rewrite match_at_camel. reflexivity.
  - destruct s as [|c1 s1]; cbn [scan]; rewrite match_at_camel; [reflexivity|].
    simpl in Hlen. destruct s1 as [|c2 s2].
    + cbn [map join fold_right render append spaced starts_upper].
      rewrite andb_false_r. cbn [scan]. rewrite match_at_camel. reflexivity.
    + cbn [spaced starts_upper].
      destruct (is_lower c1 && is_upper c2) eqn:E.
      * apply andb_true_iff in E. destruct E as [_ E2].
        rewrite (upper_not_lower _ E2). cbn [andb]. cbn [scan].
        cbn [map join fold_right render]. fold (join (map (render camel_tmpl)
                                                   (scan no_flags camel_re (S (S i)) 0 s2))).
        rewrite IH by (simpl in *; lia). reflexivity.
      * cbn [map join fold_right render append].
        fold (join (map (render camel_tmpl) (scan no_flags camel_re (S i) 0 (String c2 s2)))).
        rewrite IH by (simpl in *; lia). reflexivity.
Qed.

Lemma sub_camel_spaced (s : string) :
  sub no_flags camel_re camel_tmpl s = spaced s.
Proof. apply (@scan_camel_spaced (String.length s)). apply Nat.le_refl. Qed.

(** *** Canonical names of plain words *)

Lemma all_chars_weaken (p p' : ascii -> bool) (s : string) :
  (forall c, p c = true -> p' c = true) ->
  all_chars p s = true -> all_chars p' s = true.
Proof.
  intros Hp. induction s as [|c s IH]; [reflexivity|]. cbn [all_chars].
  rewrite !andb_true_iff. intros [Hc Hs]. auto.
Qed.

Lemma all_chars_app (p : ascii -> bool) (a b : string) :
  all_chars p (a ++ b) = all_chars p a && all_chars p b.
Proof.
  induction a as [|c a IH]; [reflexivity|]. cbn [append all_chars].
  rewrite IH, andb_assoc. reflexivity.
Qed.

Lemma all_chars_lower (p p' : ascii -> bool) (s : string) :
  (forall c, p c = true -> p' (lower_char c) = true) ->
  all_chars p s = true -> all_chars p' (lower s) = true.
Proof.
  intros Hp. induction s as [|c s IH]; [reflexivity|].
  change (lower (String c s)) with (String (lower_char c) (lower s)).
  cbn [all_chars]. rewrite !andb_true_iff. intros [Hc Hs]. auto.
Qed.

Lemma last_char_lower (x : ascii) (s : string) :
  last_char (lower_char x) (lower s) = lower_char (last_char x s).
Proof.
  revert x. induction s as [|y s IH]; intros x; [reflexivity|].
  change (lower (String y s)) with (String (lower_char y) (lower s)).
  cbn [last_char]. apply IH.
Qed.

Lemma upper_char_alpha (c : ascii) : is_alpha c = true -> is_upper (upper_char c) = true.
Proof. destruct c as [[] [] [] [] [] [] [] []]; vm_compute; congruence. Qed.

Lemma lower_char_alpha (c : ascii) : is_alpha c = true -> is_lower (lower_char c) = true.
Proof. destruct c as [[] [] [] [] [] [] [] []]; vm_compute; congruence. Qed.

Lemma lower_char_alnum (c : ascii) :
  is_alnum c = true -> lower_or_digit (lower_char c) = true.
Proof. destruct c as [[] [] [] [] [] [] [] []]; vm_compute; congruence. Qed.

Lemma upper_char_upper (c : ascii) : is_upper c = true -> upper_char c = c.
Proof. destruct c as [[] [] [] [] [] [] [] []]; vm_compute; congruence. Qed.

Lemma lower_or_digit_not_upper (c : ascii) :
  lower_or_digit c = true -> not_upper c = true.
Proof. destruct c as [[] [] [] [] [] [] [] []]; vm_compute; congruence. Qed.

Lemma lower_or_digit_alnum (c : ascii) : lower_or_digit c = true -> is_alnum c = true.
Proof. destruct c as [[] [] [] [] [] [] [] []]; vm_compute; congruence. Qed.

Lemma upper_alnum (c : ascii) : is_upper c = true -> is_alnum c = true.
Proof. destruct c as [[] [] [] [] [] [] [] []]; vm_compute; congruence. Qed.

Lemma alnum_not_space (c : ascii) : is_alnum c = true -> is_space c = false.
Proof. destruct c as [[] [] [] [] [] [] [] []]; vm_compute; congruence. Qed.

Lemma capitalize_plain_word (w : string) :
  plain_word w = true -> capital_word (capitalize w) = true.
Proof.
  destruct w as [|c [|x tail]]; try discriminate.
  unfold plain_word, capital_word, capitalize.
  change (lower (String x tail)) with (String (lower_char x) (lower tail)).
  rewrite !andb_true_iff. intros [[Hc Hall] Hlast]. repeat split.
  - apply upper_char_alpha, Hc.
  - apply (@all_chars_lower is_alnum lower_or_digit (String x tail) lower_char_alnum Hall).
  - rewrite last_char_lower. apply lower_char_alpha, Hlast.
Qed.

Lemma capitalize_capital_word (t : string) :
  capital_word t = true -> capitalize t = t.
Proof.
  destruct t as [|u [|x tail]]; try discriminate.
  unfold capital_word, capitalize. rewrite !andb_true_iff. intros [[Hu Hall] _].
  rewrite (upper_char_upper _ Hu). f_equal.
  apply lower_fixed, (all_chars_weaken _ _ _ lower_or_digit_not_upper Hall).
Qed.

Lemma capital_word_alnum (t : string) :
  capital_word t = true -> all_chars is_alnum t = true.
Proof.
  destruct t as [|u [|x tail]]; try discriminate.
  unfold capital_word. rewrite !andb_true_iff. intros [[Hu Hall] _].
  change (all_chars is_alnum (String u (String x tail)))
    with (is_alnum u && all_chars is_alnum (String x tail)).
  rewrite (upper_alnum _ Hu), (all_chars_weaken _ _ _ lower_or_digit_alnum Hall).
  reflexivity.
Qed.

Lemma capital_word_starts_upper (t rest : string) :
  capital_word t = true -> starts_upper (t ++ rest) = true.
Proof.
  destruct t as [|u [|x tail]]; try discriminate.
  unfold capital_word. rewrite !andb_true_iff. intros [[Hu _] _]. exact Hu.
Qed.

(** The camel-case step on a run of lower-case letters and digits that
    ends with a letter, and on a capitalised word. *)
Lemma spaced_body (tail : string) :
  forall x rest,
    all_chars lower_or_digit (String x tail) = true ->
    is_lower (last_char x tail) = true ->
    spaced (String x tail ++ rest) =
    String x tail ++ (if starts_upper rest then String " " (spaced rest) else spaced rest).
Proof.
  induction tail as [|y tail IH]; intros x rest Hall Hlast.
  - cbn [last_char] in Hlast. cbn [append spaced]. rewrite Hlast. reflexivity.
  - cbn [last_char] in Hlast. apply all_chars_tail in Hall as Htail.
    assert (Hy : is_upper y = false).
    { cbn [all_chars] in Htail. apply andb_true_iff in Htail. destruct Htail as [Hy _].
      apply lower_or_digit_not_upper in Hy. apply negb_true_iff, Hy. }
    change (String x (String y tail) ++ rest) with (String x (String y tail ++ rest)).
    cbn [spaced]. change (starts_upper (String y tail ++ rest)) with (is_upper y).
    rewrite Hy, andb_false_r, (IH _ _ Htail Hlast). reflexivity.
Qed.

Lemma spaced_capital_word (t rest : string) :
  capital_word t = true ->
  spaced (t ++ rest) =
  t ++ (if starts_upper rest then String " " (spaced rest) else spaced rest).
Proof.
  destruct t as [|u [|x tail]]; try discriminate.
  unfold capital_word. rewrite !andb_true_iff. intros [[Hu Hall] Hlast].
  change (String u (String x tail) ++ rest) with (String u (String x tail ++ rest)).
  cbn [spaced]. rewrite (upper_not_lower _ Hu). cbn [andb].
  rewrite (spaced_body _ _ _ Hall Hlast). reflexivity.
Qed.

Lemma spaced_join (ts : list string) :
  forallb capital_word ts = true -> spaced (join ts) = unwords ts.
Proof.
  induction ts as [|t ts IH]; [reflexivity|].
  cbn [forallb]. rewrite andb_true_iff. intros [Ht Hts].
  change (join (t :: ts)) with (t ++ join ts).
  rewrite (spaced_capital_word _ _ Ht), (IH Hts).
  destruct ts as [|t' ts]; [apply append_empty|].
  change (join (t' :: ts)) with (t' ++ join ts).
  cbn [forallb] in Hts. apply andb_true_iff in Hts. destruct Hts as [Ht' _].
  rewrite (capital_word_starts_upper _ _ Ht'). reflexivity.
Qed.

Lemma all_chars_join (p : ascii -> bool) (ts : list string) :
  forallb (all_chars p) ts = true -> all_chars p (join ts) = true.
Proof.
  induction ts as [|t ts IH]; [reflexivity|]. cbn [forallb].
  rewrite andb_true_iff. intros [Ht Hts].
  change (join (t :: ts)) with (t ++ join ts).
  rewrite all_chars_app, Ht, (IH Hts). reflexivity.
Qed.

Lemma forallb_weaken {A : Type} (f g : A -> bool) (l : list A) :
  (forall a, f a = true -> g a = true) -> forallb f l = true -> forallb g l = true.
Proof.
  intros Hfg. rewrite !forallb_forall. auto.
Qed.

(** [split()] on words without white space, put one after the other. *)
Lemma split_ws_from_word (t : string) :
  forall cur rest, all_chars is_alnum t = true ->
    split_ws_from cur (t ++ rest) = split_ws_from (rev_string cur t) rest.
Proof.
  induction t as [|c t IH]; intros cur rest Hall; [reflexivity|].
  cbn [append split_ws_from rev_string].
  cbn [all_chars] in Hall. apply andb_true_iff in Hall. destruct Hall as [Hc Ht].
  rewrite (alnum_not_space _ Hc). apply IH, Ht.
Qed.

Lemma flush_word (c : ascii) (t : string) (out : list string) :
  flush (rev_string "" (String c t)) out = String c t :: out.
Proof.
  unfold flush.
  assert (H : rev_string "" (rev_string "" (String c t)) = String c t)
    by (rewrite rev_string_twice; apply append_empty).
  destruct (rev_string "" (String c t)) as [|y u]; [discriminate|].
  rewrite H. reflexivity.
Qed.

Lemma split_ws_unwords (ts : list string) :
  forallb capital_word ts = true -> split_ws (unwords ts) = ts.
Proof.
  unfold split_ws. induction ts as [|t ts IH]; [reflexivity|].
  cbn [forallb]. rewrite andb_true_iff. intros [Ht Hts].
  pose proof (capital_word_alnum _ Ht) as Hall.
  destruct t as [|c t]; [discriminate|].
  destruct ts as [|t' ts].
  - cbn [unwords]. rewrite <- (append_empty (String c t)) at 1.
    rewrite (split_ws_from_word _ _ _ Hall). cbn [split_ws_from].
    apply flush_word.
  - change (unwords (String c t :: t' :: ts))
      with (String c t ++ String " " (unwords (t' :: ts))).
    rewrite (split_ws_from_word _ _ _ Hall). cbn [split_ws_from].
    change (is_space " ") with true. cbn iota.
    rewrite flush_word, (IH Hts). reflexivity.
Qed.

(** The tokens of capitalised plain words written without separator are
    these words. *)
Lemma expanded_words_capital (ts : list string) :
  forallb capital_word ts = true -> expanded_words (join ts) = ts.
Proof.
  intros Hts.
  assert (Hall : all_chars is_alnum (join ts) = true)
    by (apply all_chars_join, (forallb_weaken _ _ _ capital_word_alnum Hts)).
  unfold expanded_words.
  rewrite (sub_extension_alnum _ Hall), (split_delimiters_alnum _ Hall).
  cbn [flat_map]. rewrite sub_camel_spaced, (spaced_join _ Hts), (split_ws_unwords _ Hts).
  apply app_nil_r.
Qed.

Lemma filter_all {A : Type} (f : A -> bool) (l : list A) :
  forallb f l = true -> filter f l = l.
Proof.
  induction l as [|a l IH]; [reflexivity|]. cbn [forallb filter].
  rewrite andb_true_iff. intros [-> Hl]. rewrite (IH Hl). reflexivity.
Qed.

Lemma map_fixed {A : Type} (f : A -> A) (p : A -> bool) (l : list A) :
  (forall a, p a = true -> f a = a) -> forallb p l = true -> map f l = l.
Proof.
  intros Hf. induction l as [|a l IH]; [reflexivity|]. cbn [forallb map].
  rewrite andb_true_iff. intros [Ha Hl]. rewrite (Hf _ Ha), (IH Hl). reflexivity.
Qed.

Lemma forallb_map {A B : Type} (f : A -> B) (p : B -> bool) (l : list A) :
  forallb p (map f l) = forallb (fun a => p (f a)) l.
Proof.
  induction l as [|a l IH]; [reflexivity|]. cbn [map forallb]. rewrite IH. reflexivity.
Qed.

Lemma capital_word_nonempty (t : string) : capital_word t = true -> nonempty t = true.
Proof. destruct t; [discriminate | reflexivity]. Qed.

Lemma plain_word_nonempty (w : string) : plain_word w = true -> nonempty w = true.
Proof. destruct w; [discriminate | reflexivity]. Qed.

(** C2, as stated, fails: x-ray gives XRay, which gives Xray. *)
Lemma to_pascal_case_not_idempotent :
  to_pascal_case "x-ray" = "XRay" /\
  to_pascal_case (to_pascal_case "x-ray") = "Xray" /\
  to_pascal_case (to_pascal_case "x-ray") <> to_pascal_case "x-ray".
Proof.
  split; [|split]; vm_compute; [reflexivity | reflexivity | discriminate].
Qed.

(** C2, amended.  Canonicalisation writes the capitalised tokens without
    separator, and a second pass finds the tokens again only where a
    lower-case letter meets an upper-case one.  For every input whose
    tokens are plain words (letters and digits, two characters at least,
    a letter first and a letter last), re-applying [to_pascal_case] to its
    output yields the same output. *)
Theorem to_pascal_case_idempotent_on_plain_words (x : string) :
  forallb plain_word (expanded_words x) = true ->
  to_pascal_case (to_pascal_case x) = to_pascal_case x.
Proof.
  intros Hplain. unfold to_pascal_case at 2 3.
  rewrite (filter_all _ _ (forallb_weaken _ _ _ plain_word_nonempty Hplain)).
  assert (Hts : forallb capital_word (map capitalize (expanded_words x)) = true).
  { rewrite forallb_map. exact (forallb_weaken _ _ _ capitalize_plain_word Hplain). }
  unfold to_pascal_case. rewrite (expanded_words_capital _ Hts).
  rewrite (filter_all _ _ (forallb_weaken _ _ _ capital_word_nonempty Hts)).
  rewrite (map_fixed _ _ _ capitalize_capital_word Hts). reflexivity.
Qed.

Lemma to_pascal_case_idempotent_on_plain_words_witness :
  forallb plain_word (expanded_words "arrowLeft_outline.svg") = true /\
  to_pascal_case (to_pascal_case "arrowLeft_outline.svg") =
  to_pascal_case "arrowLeft_outline.svg".
Proof.
  split; [vm_compute; reflexivity|].
  apply (to_pascal_case_idempotent_on_plain_words "arrowLeft_outline.svg").
  vm_compute. reflexivity.
Defined.

(* ================================================================= *)
(** ** Further properties *)

(** *** The ends of a stripped text *)

Lemma lstrip_by_starts (p : ascii -> bool) (s : string) :
  starts_ok p (lstrip_by p s) = true.
Proof.
  induction s as [|c s IH]; [reflexivity|]. cbn [lstrip_by].
  destruct (p c) eqn:E; [exact IH|]. cbn [starts_ok]. rewrite E. reflexivity.
Qed.

Lemma rstrip_by_starts (p : ascii -> bool) (s : string) :
  starts_ok p s = true -> starts_ok p (rstrip_by p s) = true.
Proof.
  destruct s as [|c s]; [reflexivity|]. cbn [starts_ok rstrip_by]. intros H.
  destruct (rstrip_by p s); [|exact H].
  apply negb_true_iff in H. rewrite H. cbn [starts_ok]. rewrite H. reflexivity.
Qed.

Lemma rstrip_by_ends (p : ascii -> bool) (s : string) :
  ends_ok p (rstrip_by p s) = true.
Proof.
  induction s as [|c s IH]; [reflexivity|]. cbn [rstrip_by].
  destruct (rstrip_by p s) as [|y t].
  - destruct (p c) eqn:E; [reflexivity|]. cbn [ends_ok last_char]. rewrite E. reflexivity.
  - exact IH.
Qed.

Lemma strip_by_ends (p : ascii -> bool) (s : string) :
  starts_ok p (strip_by p s) = true /\ ends_ok p (strip_by p s) = true.
Proof.
  unfold strip_by. split.
  - apply rstrip_by_starts, lstrip_by_starts.
  - apply rstrip_by_ends.
Qed.

Lemma lstrip_by_fixed (p : ascii -> bool) (s : string) :
  starts_ok p s = true -> lstrip_by p s = s.
Proof.
  destruct s as [|c s]; [reflexivity|]. cbn [starts_ok lstrip_by].
  intros H. apply negb_true_iff in H. rewrite H. reflexivity.
Qed.

Lemma rstrip_by_fixed (p : ascii -> bool) (s : string) :
  ends_ok p s = true -> rstrip_by p s = s.
Proof.
  induction s as [|c s IH]; [reflexivity|]. cbn [rstrip_by].
  destruct s as [|y t].
  - cbn [ends_ok last_char rstrip_by]. intros H. apply negb_true_iff in H.
    rewrite H. reflexivity.
  - intros H. rewrite (IH H). reflexivity.
Qed.

Lemma strip_by_fixed (p : ascii -> bool) (s : string) :
  starts_ok p s = true -> ends_ok p s = true -> strip_by p s = s.
Proof.
  intros Hs He. unfold strip_by. rewrite (lstrip_by_fixed _ _ Hs).
  apply rstrip_by_fixed, He.
Qed.

(** X1.  The base name returned by [determine_variant] neither begins
    nor ends with a hyphen or an underscore, whatever the name and
    whether a variant was found or not. *)
Theorem determine_variant_base_ends (name : string) :
  starts_ok (fun c => mem_char c "-_") (fst (determine_variant name)) = true /\
  ends_ok (fun c => mem_char c "-_") (fst (determine_variant name)) = true.
Proof.
  unfold determine_variant.
  destruct (first_variant outlined_patterns (lower name) name) as [base flag].
  apply strip_by_ends.
Qed.

(** *** The default fill *)

Lemma prefix_app (a s rest : string) :
  prefix a s = true -> prefix a (s ++ rest) = true.
Proof.
  revert s. induction a as [|x a IH]; intros [|y s]; try discriminate.
  - intros _. destruct rest; reflexivity.
  - intros _. reflexivity.
  - cbn [append]. rewrite !prefix_cons. intros [-> H]. auto.
Qed.

Lemma contains_app_left (a s rest : string) :
  contains a s = true -> contains a (s ++ rest) = true.
Proof.
  induction s as [|y s IH].
  - intros H. apply contains_prefix.
    destruct a; [destruct rest; reflexivity | discriminate].
  - cbn [append]. rewrite !contains_cons, !orb_true_iff. intros [H | H].
    + left. exact (prefix_app _ _ rest H).
    + right. exact (IH H).
Qed.

Lemma contains_app_right (a s rest : string) :
  contains a rest = true -> contains a (s ++ rest) = true.
Proof.
  intros H. induction s as [|y s IH]; [exact H|].
  cbn [append]. apply contains_later, IH.
Qed.

(** [s.replace(old, new)] writes [new] where [old] occurs: whatever
    occurs in [new] occurs in the result. *)
Lemma replace_inserts (a new s : string) (o : ascii) (old : string) :
  contains a new = true -> contains (String o old) s = true ->
  contains a (replace (String o old) new s) = true.
Proof.
  intros Ha. unfold replace. induction s as [|c s IH]; [discriminate|].
  cbn [replace_from]. destruct (prefix (String o old) (String c s)) eqn:E.
  - intros _. apply contains_app_left, Ha.
  - rewrite contains_cons, E. cbn [orb]. intros H.
    apply contains_later, (IH H).
Qed.

(** X2.  Every output of [optimize_svg] that contains the opening [<svg]
    followed by a space contains a fill declaration: either the cleaned
    text had one, or the default one was injected. *)
Theorem optimize_svg_has_fill (svg_content : string) :
  contains "<svg " (optimize_svg svg_content) = true ->
  contains "fill=" (optimize_svg svg_content) = true.
Proof.
  unfold optimize_svg, default_fill.
  set (t := clean (force_height (force_width (force_viewBox svg_content)))).
  destruct (contains "fill=" t) eqn:Efill; cbn [negb]; [auto|].
  destruct (contains "<svg " t) eqn:Esvg.
  - intros _. apply replace_inserts; [reflexivity | exact Esvg].
  - rewrite (replace_absent _ _ _ Esvg), Esvg. discriminate.
Qed.

Lemma optimize_svg_has_fill_witness :
  contains "<svg " (optimize_svg plain_icon) = true /\
  contains "fill=" (optimize_svg plain_icon) = true.
Proof.
  assert (H : contains "<svg " (optimize_svg plain_icon) = true)
    by (vm_compute; reflexivity).
  split; [exact H | exact (optimize_svg_has_fill plain_icon H)].
Defined.

(** *** Matches go forward *)

Section Forward.

Variable fl : flags.

Lemma one_forward (p : ascii -> bool) : forward (one p).
Proof.
  intros st k x. unfold one. destruct (rest st) as [|c s]; [discriminate|].
  destruct (p c); [|discriminate]. intros H. exists (step st s).
  split; [simpl; lia | exact H].
Qed.

Lemma orelse_cases (a b : option mstate) (x : mstate) :
  orelse a b = Some x -> a = Some x \/ b = Some x.
Proof. destruct a; simpl; auto. Qed.

Lemma star_loop_forward
  (body : mstate -> (mstate -> option mstate) -> option mstate) (greedy : bool) :
  forward body -> forall n, forward (fun st k => star_loop greedy body n st k).
Proof.
  intros Hbody. induction n as [|n IH]; intros st k x; cbn [star_loop].
  - intros H. exists st. split; [lia | exact H].
  - assert (Hagain :
      body st (fun st' => if pos st <? pos st' then star_loop greedy body n st' k else None)
      = Some x -> exists st', pos st <= pos st' /\ k st' = Some x).
    { intros H. destruct (Hbody _ _ _ H) as (st1 & Hle & H1).
      destruct (pos st <? pos st1); [|discriminate].
      destruct (IH _ _ _ H1) as (st2 & Hle2 & H2).
      exists st2. split; [lia | exact H2]. }
    intros H. destruct greedy; apply orelse_cases in H; destruct H as [H | H];
      auto; exists st; (split; [lia | exact H]).
Qed.

Lemma rmatch_forward (r : regex) : forward (rmatch fl r).
Proof.
  induction r as [ | c | | neg items | r1 IH1 r2 IH2 | r1 IH1 r2 IH2
                 | g r IH | n r IH | | ]; intros st k x; cbn [rmatch].
  - intros H. exists st. split; [lia | exact H].
  - apply one_forward.
  - apply one_forward.
  - apply one_forward.
  - intros H. destruct (IH1 _ _ _ H) as (st1 & Hle1 & H1).
    destruct (IH2 _ _ _ H1) as (st2 & Hle2 & H2).
    exists st2. split; [lia | exact H2].
  - intros H. apply orelse_cases in H. destruct H as [H | H]; eauto.
  - apply (star_loop_forward g IH).
  - intros H. destruct (IH _ _ _ H) as (st1 & Hle1 & H1).
    eexists. split; [|exact H1]. exact Hle1.
  - destruct (pos st =? 0); [|discriminate]. intros H. exists st. split; [lia | exact H].
  - destruct (at_end (rest st)); [|discriminate]. intros H. exists st.
    split; [lia | exact H].
Qed.

Lemma star_loop_greedy_some
  (body : mstate -> (mstate -> option mstate) -> option mstate) (n : nat)
  (st : mstate) (k : mstate -> option mstate) :
  k st <> None -> star_loop true body n st k <> None.
Proof.
  intros H. destruct n; cbn [star_loop]; [exact H|].
  apply orelse_some. right. exact H.
Qed.

End Forward.

(** *** The split on delimiters *)

Lemma set_ok_delimiter (c : ascii) :
  set_ok no_flags false [CChar "-"%char; CChar "_"%char; CSpace] c = is_delimiter c.
Proof.
  unfold set_ok, is_delimiter. cbn.
  destruct (c =? "-")%char, (c =? "_")%char, (is_space c); reflexivity.
Qed.

Lemma match_at_delimiters_none (i : nat) (s : string) (adv : bool) :
  starts_ok is_delimiter s = true ->
  match_at no_flags delimiters_re i s adv = None.
Proof.
  unfold match_at, delimiters_re, Plus, delimiter. cbn [rmatch]. unfold one at 1.
  cbn [rest]. destruct s as [|c s]; [reflexivity|]. cbn [starts_ok].
  rewrite set_ok_delimiter. intros H. apply negb_true_iff in H. rewrite H. reflexivity.
Qed.

Lemma match_at_delimiters_some (i : nat) (c : ascii) (s : string) (adv : bool) :
  is_delimiter c = true ->
  exists n g, match_at no_flags delimiters_re i (String c s) adv = Some (S n, g).
Proof.
  intros Hc. unfold match_at, delimiters_re, Plus, delimiter. cbn [rmatch].
  unfold one at 1. cbn [rest]. rewrite set_ok_delimiter, Hc.
  set (k := fun st' : mstate => if adv && (pos st' =? i) then None else Some st').
  set (st1 := step (MState i (String c s) []) s).
  destruct (star_loop true
              (fun st k0 => one (set_ok no_flags false
                                   [CChar "-"%char; CChar "_"%char; CSpace]) st k0)
              (String.length (rest st1)) st1 k) as [x|] eqn:E.
  - destruct (@star_loop_forward _ true (@one_forward _) _ _ _ _ E) as (st' & Hle & Hk).
    unfold k in Hk. destruct (adv && (pos st' =? i)); [discriminate|].
    injection Hk as <-. exists (pos st' - S i), (caps st'). f_equal. f_equal.
    subst st1. simpl in Hle. lia.
  - exfalso. revert E. apply star_loop_greedy_some. unfold k, st1. cbn [step pos].
    replace (S i =? i) with false by (symmetry; apply Nat.eqb_neq; lia).
    rewrite andb_false_r. discriminate.
Qed.

Lemma scan_kept_input (fl : flags) (r : regex) (R : ascii -> bool) (s : string) :
  all_chars R s = true -> forall i k, Forall (kept R) (scan fl r i k s).
Proof.
  induction s as [|c s IH]; intros Hall i k.
  - destruct k as [|k]; cbn [scan]; [|constructor].
    destruct (match_at fl r i "" false) as [[[|n] g]|]; repeat constructor.
  - cbn [all_chars] in Hall. apply andb_true_iff in Hall. destruct Hall as [Hc Hs].
    destruct k as [|k]; cbn [scan]; [|apply IH, Hs].
    destruct (match_at fl r i (String c s) false) as [[[|n] g]|].
    + constructor; [exact I|].
      destruct (match_at fl r i (String c s) true) as [[[|n'] g']|];
        constructor; try exact I; try exact Hc; apply IH, Hs.
    + constructor; [exact I | apply IH, Hs].
    + constructor; [exact Hc | apply IH, Hs].
Qed.

(** The characters kept by the split on delimiters are not delimiters. *)
Lemma scan_delimiters_kept (s : string) :
  forall i k, Forall (kept (fun c => negb (is_delimiter c)))
                (scan no_flags delimiters_re i k s).
Proof.
  induction s as [|c s IH]; intros i k.
  - destruct k as [|k]; cbn [scan]; [|constructor].
    rewrite match_at_delimiters_none by reflexivity. constructor.
  - destruct k as [|k]; cbn [scan]; [|apply IH].
    destruct (is_delimiter c) eqn:Ec.
    + destruct (match_at_delimiters_some i _ s false Ec) as (n & g & ->).
      constructor; [exact I | apply IH].
    + rewrite match_at_delimiters_none by (cbn [starts_ok]; rewrite Ec; reflexivity).
      constructor; [cbn [kept]; rewrite Ec; reflexivity | apply IH].
Qed.

Lemma kept_both (R Q : ascii -> bool) (ps : list piece) :
  Forall (kept R) ps -> Forall (kept Q) ps ->
  Forall (kept (fun c => R c && Q c)) ps.
Proof.
  induction 1 as [|x ps Hx _ IH]; intros HQ; [constructor|].
  inversion HQ as [|? ? Hx' HQ']; subst. constructor; [|exact (IH HQ')].
  destruct x as [c|t g]; [|exact I]. cbn [kept] in *. rewrite Hx, Hx'. reflexivity.
Qed.

Lemma all_chars_rev (R : ascii -> bool) (s : string) :
  forall acc, all_chars R acc = true -> all_chars R s = true ->
              all_chars R (rev_string acc s) = true.
Proof.
  induction s as [|c s IH]; intros acc Hacc Hs; [exact Hacc|].
  cbn [all_chars] in Hs. apply andb_true_iff in Hs. destruct Hs as [Hc Hs].
  cbn [rev_string]. apply IH; [|exact Hs]. cbn [all_chars]. rewrite Hc, Hacc. reflexivity.
Qed.

(** A removal writes kept characters only. *)
Lemma render_removal_chars (R : ascii -> bool) (ps : list piece) :
  Forall (kept R) ps -> all_chars R (join (map (render []) ps)) = true.
Proof.
  induction 1 as [|x ps Hx _ IH]; [reflexivity|].
  destruct x as [c|t g]; cbn [map join fold_right render expand append];
    fold (join (map (render []) ps)); [|exact IH].
  cbn [all_chars]. cbn [kept] in Hx. rewrite Hx, IH. reflexivity.
Qed.

Lemma split_pieces_chars (R : ascii -> bool) (ps : list piece) :
  Forall (kept R) ps ->
  forall cur, all_chars R cur = true ->
              Forall (fun w => all_chars R w = true) (split_pieces cur ps).
Proof.
  induction 1 as [|x ps Hx _ IH]; intros cur Hcur; cbn [split_pieces].
  - constructor; [|constructor]. apply all_chars_rev; [reflexivity | exact Hcur].
  - destruct x as [c|t g].
    + apply IH. cbn [all_chars]. cbn [kept] in Hx. rewrite Hx, Hcur. reflexivity.
    + constructor; [apply all_chars_rev; [reflexivity | exact Hcur]|].
      apply IH. reflexivity.
Qed.

(** The camel-case step adds spaces only, and [split()] drops them. *)
Lemma spaced_chars (R : ascii -> bool) (s : string) :
  all_chars R s = true -> all_chars (fun c => R c || is_space c) (spaced s) = true.
Proof.
  induction s as [|c s IH]; [reflexivity|]. cbn [all_chars spaced].
  rewrite andb_true_iff. intros [Hc Hs].
  destruct (is_lower c && starts_upper s); cbn [all_chars];
    rewrite Hc, (IH Hs); cbn [orb andb]; [|reflexivity].
  change (is_space " "%char) with true. rewrite orb_true_r. reflexivity.
Qed.

Lemma flush_chars (R : ascii -> bool) (cur : string) (out : list string) :
  all_chars R cur = true -> Forall (fun w => all_chars R w = true) out ->
  Forall (fun w => all_chars R w = true) (flush cur out).
Proof.
  intros Hcur Hout. unfold flush. destruct cur as [|c cur]; [exact Hout|].
  constructor; [|exact Hout]. apply all_chars_rev; [reflexivity | exact Hcur].
Qed.

Lemma split_ws_chars (R : ascii -> bool) (s : string) :
  all_chars (fun c => R c || is_space c) s = true ->
  forall cur, all_chars R cur = true ->
              Forall (fun w => all_chars R w = true) (split_ws_from cur s).
Proof.
  induction s as [|c s IH]; intros Hs cur Hcur; cbn [split_ws_from].
  - apply flush_chars; [exact Hcur | constructor].
  - cbn [all_chars] in Hs. apply andb_true_iff in Hs. destruct Hs as [Hc Hs].
    destruct (is_space c).
    + apply flush_chars; [exact Hcur | apply IH; [exact Hs | reflexivity]].
    + apply IH; [exact Hs|]. rewrite orb_false_r in Hc. cbn [all_chars].
      rewrite Hc, Hcur. reflexivity.
Qed.

(** The tokens are made of characters of the name that are not
    delimiters. *)
Lemma expanded_words_chars (R : ascii -> bool) (name : string) :
  all_chars R name = true ->
  Forall (fun w => all_chars (fun c => R c && negb (is_delimiter c)) w = true)
    (expanded_words name).
Proof.
  intros Hname. unfold expanded_words.
  assert (Hstem : all_chars R (sub IGNORECASE extension_re [] name) = true)
    by apply render_removal_chars, scan_kept_input, Hname.
  set (stem := sub IGNORECASE extension_re [] name) in *.
  assert (Hwords : Forall (fun w => all_chars (fun c => R c && negb (is_delimiter c)) w = true)
                     (split no_flags delimiters_re stem)).
  { unfold split. apply split_pieces_chars; [|reflexivity].
    apply kept_both; [apply scan_kept_input, Hstem | apply scan_delimiters_kept]. }
  induction Hwords as [|word words Hword _ IH]; [constructor|].
  cbn [flat_map]. apply Forall_app. split; [|exact IH].
  rewrite sub_camel_spaced. apply split_ws_chars; [|reflexivity].
  apply spaced_chars, Hword.
Qed.

Lemma capitalize_chars (R R' : ascii -> bool) (w : string) :
  (forall x, R x = true -> R' (upper_char x) = true /\ R' (lower_char x) = true) ->
  all_chars R w = true -> all_chars R' (capitalize w) = true.
Proof.
  intros HR. destruct w as [|c w]; [reflexivity|]. cbn [all_chars capitalize].
  rewrite andb_true_iff. intros [Hc Hw].
  rewrite (proj1 (HR _ Hc)).
  apply (@all_chars_lower R R' w (fun x Hx => proj2 (HR x Hx)) Hw).
Qed.

Lemma to_pascal_case_chars (R R' : ascii -> bool) (name : string) :
  (forall x, R x = true -> negb (is_delimiter x) = true ->
             R' (upper_char x) = true /\ R' (lower_char x) = true) ->
  all_chars R name = true -> all_chars R' (to_pascal_case name) = true.
Proof.
  intros HR Hname. unfold to_pascal_case.
  pose proof (expanded_words_chars R name Hname) as Hws.
  induction Hws as [|w ws Hw _ IH]; [reflexivity|].
  cbn [filter]. destruct (nonempty w); [|exact IH].
  cbn [map]. change (join (capitalize w :: ?l)) with (capitalize w ++ join l).
  rewrite all_chars_app, IH, andb_true_r.
  apply (@capitalize_chars (fun c => R c && negb (is_delimiter c)) R' w); [|exact Hw].
  intros x Hx. apply andb_true_iff in Hx. destruct Hx as [H1 H2]. auto.
Qed.

Lemma case_keeps_not_delimiter (x : ascii) :
  negb (is_delimiter x) = true ->
  negb (is_delimiter (upper_char x)) = true /\
  negb (is_delimiter (lower_char x)) = true.
Proof. destruct x as [[] [] [] [] [] [] [] []]; vm_compute; auto. Qed.

Lemma lower_char_case (x : ascii) :
  lower_char (upper_char x) = lower_char x /\
  lower_char (lower_char x) = lower_char x.
Proof. destruct x as [[] [] [] [] [] [] [] []]; vm_compute; auto. Qed.

Lemma case_variant_in_mem (s : string) (x c : ascii) :
  mem_char x s = true -> lower_char x = lower_char c ->
  case_variant_in s c = true.
Proof.
  intros Hx Hc. induction s as [|y s IH]; [discriminate|].
  cbn [mem_char] in Hx. cbn [case_variant_in]. apply orb_true_iff.
  apply orb_true_iff in Hx. destruct Hx as [Hx | Hx]; [left | right; exact (IH Hx)].
  apply Ascii.eqb_eq in Hx. subst y. rewrite Hc. apply Ascii.eqb_refl.
Qed.

Lemma all_chars_mem (s : string) : all_chars (fun c => mem_char c s) s = true.
Proof.
  assert (H : forall t, (forall c, mem_char c t = true -> mem_char c s = true) ->
                        all_chars (fun c => mem_char c s) t = true).
  { induction t as [|y t IH]; intros Hin; [reflexivity|]. cbn [all_chars].
    rewrite (Hin y) by (cbn [mem_char]; rewrite Ascii.eqb_refl; reflexivity).
    apply IH. intros c Hc. apply Hin. cbn [mem_char]. rewrite Hc. apply orb_true_r. }
  apply H. auto.
Qed.

(** X3.  The canonical name holds no hyphen, no underscore and no white
    space, whatever the input. *)
Theorem to_pascal_case_no_delimiter (name : string) :
  all_chars (fun c => negb (is_delimiter c)) (to_pascal_case name) = true.
Proof.
  apply (@to_pascal_case_chars (fun _ => true)).
  - intros x _. apply case_keeps_not_delimiter.
  - clear. induction name as [|c s IH]; [reflexivity | exact IH].
Qed.

(** X4.  Canonicalisation invents no character: every character of the
    canonical name is a character of the input, up to the case of
    letters. *)
Theorem to_pascal_case_from_input (name : string) :
  all_chars (case_variant_in name) (to_pascal_case name) = true.
Proof.
  apply (@to_pascal_case_chars (fun c => mem_char c name)).
  - intros x Hx _. destruct (lower_char_case x) as [Hu Hl].
    split; apply (case_variant_in_mem _ _ _ Hx); auto.
  - apply all_chars_mem.
Qed.

Lemma all_chars_contradiction (R : ascii -> bool) (w : string) :
  all_chars (fun c => R c && negb (R c)) w = true -> w = "".
Proof.
  destruct w as [|c w]; [reflexivity|]. cbn [all_chars].
  destruct (R c); discriminate.
Qed.

(** X5.  A name made of delimiters only (hyphens, underscores, white
    space), and the empty name, have the empty canonical name. *)
Theorem to_pascal_case_all_delimiters (name : string) :
  all_chars is_delimiter name = true -> to_pascal_case name = "".
Proof.
  intros Hname. unfold to_pascal_case.
  pose proof (expanded_words_chars is_delimiter name Hname) as Hws.
  induction Hws as [|w ws Hw _ IH]; [reflexivity|].
  apply all_chars_contradiction in Hw. subst w. exact IH.
Qed.

Lemma to_pascal_case_all_delimiters_witness :
  all_chars is_delimiter " -_ - " = true /\ to_pascal_case " -_ - " = "".
Proof.
  assert (H : all_chars is_delimiter " -_ - " = true) by (vm_compute; reflexivity).
  split; [exact H | exact (to_pascal_case_all_delimiters " -_ - " H)].
Defined.

(** *** Induction on trees *)

Lemma json_induction (P : json -> Prop) :
  P JNull -> (forall b, P (JBool b)) -> (forall t, P (JNum t)) ->
  (forall s, P (JStr s)) ->
  (forall items, Forall P items -> P (JArr items)) ->
  (forall fields, Forall (fun kv => P (snd kv)) fields -> P (JObj fields)) ->
  forall v, P v.
Proof.
  intros Hnull Hbool Hnum Hstr Harr Hobj.
  fix IH 1. intros [ | b | t | s | items | fields ].
  - exact Hnull.
  - apply Hbool.
  - apply Hnum.
  - apply Hstr.
  - apply Harr. induction items as [|x items IHitems]; constructor;
      [apply IH | exact IHitems].
  - apply Hobj. induction fields as [|[k x] fields IHfields]; constructor;
      [apply IH | exact IHfields].
Qed.

(** Induction for the walk of [parse_json_metadata]: a property of the
    trees that holds of every value that is not an object, and of an
    object as soon as it holds of the items of the lists among its
    fields. *)
Lemma tree_induction (P : json -> Prop) :
  (forall v, is_object v = false -> P v) ->
  (forall fields,
      (forall k items child, In (k, JArr items) fields -> In child items -> P child) ->
      P (JObj fields)) ->
  forall v, P v.
Proof.
  intros Hleaf Hobj.
  assert (H : forall v, P v /\ (forall items, v = JArr items -> Forall P items)).
  { apply json_induction.
    - split; [apply Hleaf; reflexivity | discriminate].
    - split; [apply Hleaf; reflexivity | discriminate].
    - split; [apply Hleaf; reflexivity | discriminate].
    - split; [apply Hleaf; reflexivity | discriminate].
    - intros items Hitems. split; [apply Hleaf; reflexivity|].
      intros items' E. injection E as <-.
      apply Forall_forall. intros x Hx.
      exact (proj1 (proj1 (Forall_forall _ _) Hitems x Hx)).
    - intros fields Hfields. split; [|discriminate].
      apply Hobj. intros k items child Hin Hchild.
      pose proof (proj1 (Forall_forall _ _) Hfields _ Hin) as [_ Hitems].
      exact (proj1 (Forall_forall _ _) (Hitems items eq_refl) child Hchild). }
  intros v. exact (proj1 (H v)).
Qed.

(** The walk of an object, with the loops over its children named. *)
Lemma parse_json_metadata_object (fields : list (string * json))
  (path section : string) :
  parse_json_metadata (JObj fields) path section =
  match dict_get "type" fields (JStr ""), dict_get "name" fields (JStr "") with
  | JStr node_type, JStr name =>
      let current_section :=
        if mem node_type ["PAGE"; "FRAME"; "SECTION"] then name else section in
      let current_path :=
        match path with
        | EmptyString => name
        | _ => path ++ "/" ++ name
        end in
      own <-
        (if is_icon_node name node_type
         then match dict_get "id" fields (JStr "") with
              | JStr node_id =>
                  Ok [mkIconInfo name node_id current_section
                        (check_outlined_variant name) current_path]
              | _ => Beyond
              end
         else Ok []) ;;
      below <- children_icons fields current_path current_section ;;
      Ok (own ++ below)%list
  | JStr node_type, _ =>
      if mem (upper node_type) ["PAGE"; "DOCUMENT"; "SECTION"]
      then Beyond
      else Raise AttributeError
  | _, _ => Raise AttributeError
  end.
Proof.
  cbn [parse_json_metadata].
  destruct (dict_get "type" fields (JStr "")) as [ | | | node_type | | ]; try reflexivity.
  destruct (dict_get "name" fields (JStr "")) as [ | | | name | | ]; try reflexivity.
  cbv zeta.
  set (current_section := if mem node_type ["PAGE"; "FRAME"; "SECTION"] then name else section).
  set (current_path := match path with EmptyString => name | _ => path ++ "/" ++ name end).
  f_equal.
  match goal with
  | |- (fun own => bind (?f fields) _) = _ => set (walk := f)
  end.
  assert (Hwalk : forall d, walk d = children_icons d current_path current_section).
  { induction d as [|[k v] d IHd]; [reflexivity|].
    unfold walk. cbn [children_icons]. fold walk.
    destruct (String.eqb k "children"); [|exact IHd].
    destruct v as [ | | | | items | ]; try reflexivity.
    induction items as [|child items IHitems]; [reflexivity|].
    cbn [extend_icons]. rewrite <- IHitems. reflexivity. }
  rewrite Hwalk. reflexivity.
Qed.

(** *** The walk over the children *)

(** What the loop over the fields comes to: nothing to walk, a value that
    cannot be iterated, or the walk of the list found under the key
    children. *)
Lemma children_icons_cases (d : list (string * json)) (path section : string) :
  children_icons d path section = Ok [] \/
  children_icons d path section = Raise TypeError \/
  exists k items, In (k, JArr items) d /\
                  children_icons d path section = extend_icons items path section.
Proof.
  induction d as [|[k v] d IH]; [left; reflexivity|]. cbn [children_icons].
  destruct (String.eqb k "children").
  - destruct v as [ | | | | items | ]; auto.
    right. right. exists k, items. split; [left|]; reflexivity.
  - destruct IH as [H | [H | (k' & items & Hin & H)]]; auto.
    right. right. exists k', items. split; [right; exact Hin | exact H].
Qed.


Lemma extend_icons_records (G : IconInfo -> Prop) (items : list json)
  (path section : string) :
  (forall child l, In child items ->
                   parse_json_metadata child path section = Ok l -> Forall G l) ->
  forall l, extend_icons items path section = Ok l -> Forall G l.
Proof.
  induction items as [|child items IH]; intros H l; cbn [extend_icons].
  - intros E. injection E as <-. constructor.
  - destruct (parse_json_metadata child path section) as [found| |] eqn:Efound;
      try discriminate. cbn [bind].
    destruct (extend_icons items path section) as [more| |] eqn:Emore;
      try discriminate. cbn [bind]. intros E. injection E as <-.
    apply Forall_app. split.
    + exact (H child found (or_introl eq_refl) Efound).
    + exact (IH (fun c l Hc => H c l (or_intror Hc)) more eq_refl).
Qed.






(** *** The records of tree extraction *)

Lemma prefix_self_app (a rest : string) : prefix a (a ++ rest) = true.
Proof.
  induction a as [|x a IH]; [destruct rest; reflexivity|].
  cbn [append]. apply prefix_cons. auto.
Qed.

Lemma prefix_trans (a b p : string) :
  prefix a b = true -> prefix b p = true -> prefix a p = true.
Proof.
  revert b p. induction a as [|x a IH]; intros b p; [destruct p; reflexivity|].
  destruct b as [|y b]; [discriminate|]. destruct p as [|z p]; [discriminate|].
  rewrite !prefix_cons. intros [-> Hab] [-> Hbp]. split; [reflexivity|].
  exact (IH _ _ Hab Hbp).
Qed.

Lemma tree_record_lift (start name : string) (r : IconInfo) :
  tree_record match start with
              | EmptyString => name
              | _ => start ++ "/" ++ name
              end r ->
  tree_record start r.
Proof.
  intros (Hname & Hunder & Hflag). split; [exact Hname|]. split; [|exact Hflag].
  destruct start as [|c start]; [exact I|].
  assert (Hu : prefix ((String c start ++ "/" ++ name) ++ "/") (path r) = true)
    by exact Hunder.
  change (prefix (String c start ++ "/") (path r) = true).
  refine (prefix_trans _ _ _ _ Hu).
  rewrite <- (append_assoc (String c start) "/" name), append_assoc.
  apply prefix_self_app.
Qed.

Lemma parse_json_metadata_records (data : json) :
  forall start context icons,
    parse_json_metadata data start context = Ok icons ->
    Forall (tree_record start) icons.
Proof.
  induction data as [v Hv | fields IH] using tree_induction;
    intros start context icons.
  - destruct v; try discriminate; intros E; injection E as <-; constructor.
  - rewrite parse_json_metadata_object.
    destruct (dict_get "type" fields (JStr "")) as [ | | | node_type | | ];
      try discriminate.
    destruct (dict_get "name" fields (JStr "")) as [ | | | node_name | | ];
      try (destruct (mem (upper node_type) ["PAGE"; "DOCUMENT"; "SECTION"]);
           discriminate).
    cbv zeta.
    set (current_section := if mem node_type ["PAGE"; "FRAME"; "SECTION"]
                            then node_name else context).
    set (current_path := match start with EmptyString => node_name | _ => start ++ "/" ++ node_name end).
    assert (Hown : forall own,
               (if is_icon_node node_name node_type
                then match dict_get "id" fields (JStr "") with
                     | JStr node_id =>
                         Ok [mkIconInfo node_name node_id current_section
                               (check_outlined_variant node_name) current_path]
                     | _ => Beyond
                     end
                else Ok []) = Ok own -> Forall (tree_record start) own).
    { intros own. destruct (is_icon_node node_name node_type);
        [|intros E; injection E as <-; constructor].
      destruct (dict_get "id" fields (JStr "")); try discriminate.
      intros E. injection E as <-. constructor; [|constructor].
      unfold tree_record. cbn [path name is_outlined].
      split; [|split; [|reflexivity]].
      - subst current_path. destruct start; [left; reflexivity|].
        right. eexists. reflexivity.
      - subst current_path. destruct start as [|c start]; [exact I|].
        change (prefix (String c start ++ "/") (String c start ++ "/" ++ node_name) = true).
        rewrite <- append_assoc. apply prefix_self_app. }
    assert (Hbelow : forall below,
               children_icons fields current_path current_section = Ok below ->
               Forall (tree_record start) below).
    { intros below E.
      destruct (children_icons_cases fields current_path current_section)
        as [H | [H | (k & items & Hin & H)]]; rewrite H in E.
      - injection E as <-. constructor.
      - discriminate.
      - apply Forall_impl with (P := tree_record current_path);
          [intros r; apply tree_record_lift|].
        eapply extend_icons_records; [|exact E].
        intros child l Hchild. apply (IH k items child Hin Hchild). }
    destruct (if is_icon_node node_name node_type then _ else _) as [own| |];
      try discriminate. cbn [bind].
    destruct (children_icons fields current_path current_section) as [below| |];
      try discriminate. cbn [bind]. intros E. injection E as <-.
    apply Forall_app. split; [apply Hown | apply Hbelow]; reflexivity.
Qed.

(** X7.  Every record of tree extraction has a path that is its name, or
    ends with a slash and its name; the path lies under the path the
    extraction started from; and a record with a name has a path. *)
Theorem parse_json_metadata_paths (data : json) (start context : string)
  (icons : list IconInfo) :
  parse_json_metadata data start context = Ok icons ->
  Forall (fun r =>
            (path r = name r \/ exists pre, path r = pre ++ "/" ++ name r) /\
            under start (path r) /\
            (name r <> "" -> path r <> ""))
         icons.
Proof.
  intros E. apply Forall_impl with (P := tree_record start);
    [|exact (parse_json_metadata_records data start context E)].
  intros r (Hname & Hunder & _). split; [exact Hname|]. split; [exact Hunder|].
  intros Hnonempty. destruct Hname as [-> | [pre ->]]; [exact Hnonempty|].
  destruct pre; discriminate.
Qed.

Lemma parse_json_metadata_paths_witness :
  parse_json_metadata icons_page "" "" =
  Ok [mkIconInfo "icon-home" "1:1" "Icons" false "Icons/icon-home"] /\
  Forall (fun r =>
            (path r = name r \/ exists pre, path r = pre ++ "/" ++ name r) /\
            under "" (path r) /\
            (name r <> "" -> path r <> ""))
         [mkIconInfo "icon-home" "1:1" "Icons" false "Icons/icon-home"].
Proof.
  assert (H : parse_json_metadata icons_page "" "" =
              Ok [mkIconInfo "icon-home" "1:1" "Icons" false "Icons/icon-home"])
    by (vm_compute; reflexivity).
  split; [exact H | exact (parse_json_metadata_paths icons_page "" "" H)].
Defined.

Lemma xml_loop_outlined (matches : list (list (nat * string))) :
  forall current_section,
    Forall (fun r => is_outlined r = check_outlined_variant (name r))
      (xml_loop current_section matches).
Proof.
  induction matches as [|m matches IH]; intros current_section; [constructor|].
  cbn [xml_loop].
  destruct (mem (upper (group 1 m)) ["FRAME"; "PAGE"; "SECTION"]); [apply IH|].
  destruct (is_icon_node (group 2 m) (group 1 m)); [|apply IH].
  constructor; [reflexivity | apply IH].
Qed.

(** X8.  Whichever extractor produced them, the records returned by
    [parse_figma_metadata] carry as outlined flag the outlined test of
    their own name. *)
Theorem parse_figma_metadata_outlined (content : string) (icons : list IconInfo) :
  parse_figma_metadata content = Ok icons ->
  Forall (fun r => is_outlined r = check_outlined_variant (name r)) icons.
Proof.
  unfold parse_figma_metadata.
  destruct (loads content) as [data | e |]; [| |discriminate].
  - intros E. apply Forall_impl with (P := tree_record "");
      [|exact (parse_json_metadata_records data "" "" E)].
    intros r (_ & _ & Hflag). exact Hflag.
  - destruct e; try discriminate. intros E. injection E as <-.
    apply xml_loop_outlined.
Qed.

Lemma parse_figma_metadata_outlined_witness :
  parse_figma_metadata page_and_component =
  Ok [mkIconInfo "icon-home" "1:1" "Nav" false "Nav/icon-home"] /\
  Forall (fun r => is_outlined r = check_outlined_variant (name r))
    [mkIconInfo "icon-home" "1:1" "Nav" false "Nav/icon-home"].
Proof.
  assert (H : parse_figma_metadata page_and_component =
              Ok [mkIconInfo "icon-home" "1:1" "Nav" false "Nav/icon-home"])
    by (vm_compute; reflexivity).
  split; [exact H | exact (parse_figma_metadata_outlined page_and_component H)].
Defined.

(** *** The exceptions of the parser *)




(** *** Texts without a tag *)

Lemma not_lt_refused (s : string) :
  all_chars (fun c => negb (c =? "<")%char) s = true ->
  all_chars (fun x => negb (char_ok IGNORECASE "<"%char x)) s = true.
Proof.
  apply all_chars_weaken. intros c.
  destruct c as [[] [] [] [] [] [] [] []]; vm_compute; congruence.
Qed.

Lemma hits_keeps (s : string) : hits (keeps s) = [].
Proof. induction s as [|c s IH]; [reflexivity | exact IH]. Qed.

(** X10.  Tag-based extraction of a text without the character [<]
    yields the empty sequence. *)
Theorem parse_xml_metadata_without_tag (content : string) :
  all_chars (fun c => negb (c =? "<")%char) content = true ->
  parse_xml_metadata content = [].
Proof.
  intros H. unfold parse_xml_metadata, finditer.
  rewrite (@scan_keeps IGNORECASE node_pattern content 0).
  - rewrite hits_keeps. reflexivity.
  - apply (@search_from_refused IGNORECASE node_pattern (char_ok IGNORECASE "<"%char));
      [intros i s0 k; eexists; reflexivity | apply not_lt_refused, H].
Qed.

Lemma parse_xml_metadata_without_tag_witness :
  all_chars (fun c => negb (c =? "<")%char) "name=icon-home id=1:1" = true /\
  parse_xml_metadata "name=icon-home id=1:1" = [].
Proof.
  assert (H : all_chars (fun c => negb (c =? "<")%char) "name=icon-home id=1:1" = true)
    by (vm_compute; reflexivity).
  split; [exact H | exact (parse_xml_metadata_without_tag _ H)].
Defined.

(** *** Searching and filtering the records *)

Lemma lower_char_upper_char (c : ascii) : lower_char (upper_char c) = lower_char c.
Proof. exact (proj1 (lower_char_case c)). Qed.

Lemma lower_upper (s : string) : lower (upper s) = lower s.
Proof.
  induction s as [|c s IH]; [reflexivity|].
  change (lower (upper (String c s)))
    with (String (lower_char (upper_char c)) (lower (upper s))).
  rewrite lower_char_upper_char, IH. reflexivity.
Qed.

Lemma lower_lower (s : string) : lower (lower s) = lower s.
Proof.
  induction s as [|c s IH]; [reflexivity|].
  change (lower (lower (String c s)))
    with (String (lower_char (lower_char c)) (lower (lower s))).
  rewrite (proj2 (lower_char_case c)), IH. reflexivity.
Qed.

Lemma contains_empty (s : string) : contains "" s = true.
Proof. destruct s; reflexivity. Qed.

Lemma filter_true {A : Type} (f : A -> bool) (l : list A) :
  (forall a, f a = true) -> filter f l = l.
Proof.
  intros H. induction l as [|a l IH]; [reflexivity|]. cbn [filter].
  rewrite H, IH. reflexivity.
Qed.

Lemma filter_swap {A : Type} (f g : A -> bool) (l : list A) :
  filter f (filter g l) = filter g (filter f l).
Proof.
  induction l as [|a l IH]; [reflexivity|]. cbn [filter].
  destruct (f a) eqn:Ef, (g a) eqn:Eg; cbn [filter];
    rewrite ?Ef, ?Eg, IH; reflexivity.
Qed.

(** X11.  The search by name and the filter by section do not look at
    the case of the letters of what is asked: the query in upper case, or
    in lower case, selects the same records. *)
Theorem search_ignores_case (icons : list IconInfo) (query : string) :
  search_icons icons (upper query) = search_icons icons query /\
  search_icons icons (lower query) = search_icons icons query /\
  filter_by_section icons (upper query) = filter_by_section icons query /\
  filter_by_section icons (lower query) = filter_by_section icons query.
Proof.
  unfold search_icons, filter_by_section. rewrite lower_upper, lower_lower.
  repeat split.
Qed.

(** X12.  The empty query selects every record, in the order given, and
    so does the empty section. *)
Theorem search_empty_query (icons : list IconInfo) :
  search_icons icons "" = icons /\ filter_by_section icons "" = icons.
Proof.
  unfold search_icons, filter_by_section.
  split; apply filter_true; intros r; apply contains_empty.
Qed.

(** X13.  The search and the section filter can be applied in either
    order, and applying one of them twice changes nothing. *)
Theorem search_and_section_commute (icons : list IconInfo) (query wanted : string) :
  filter_by_section (search_icons icons query) wanted =
  search_icons (filter_by_section icons wanted) query /\
  search_icons (search_icons icons query) query = search_icons icons query /\
  filter_by_section (filter_by_section icons wanted) wanted =
  filter_by_section icons wanted.
Proof.
  unfold search_icons, filter_by_section.
  split; [apply filter_swap|]. split.
  - induction icons as [|r icons IH]; [reflexivity|]. cbn [filter].
    destruct (contains (lower query) (lower (name r))) eqn:E; [|exact IH].
    cbn [filter]. rewrite E, IH. reflexivity.
  - induction icons as [|r icons IH]; [reflexivity|]. cbn [filter].
    destruct (contains (lower wanted) (lower (section r))) eqn:E; [|exact IH].
    cbn [filter]. rewrite E, IH. reflexivity.
Qed.

(** *** The list of sections *)

Lemma leb_ltb (x y : string) : String.leb x y = true -> x <> y -> String.ltb x y = true.
Proof.
  unfold String.leb, String.ltb. intros H Hne.
  destruct (String.compare x y) eqn:E; [|reflexivity | discriminate].
  exfalso. apply Hne, String.compare_eq_iff, E.
Qed.

Lemma not_leb_ltb (x y : string) : String.leb x y = false -> String.ltb y x = true.
Proof.
  unfold String.leb, String.ltb. rewrite (String.compare_antisym x y).
  destruct (String.compare y x); cbn; congruence.
Qed.

Lemma insert_sorted_in (x s : string) (l : list string) :
  In s (insert_sorted x l) <-> s = x \/ In s l.
Proof.
  induction l as [|y l IH]; cbn [insert_sorted].
  - cbn. intuition.
  - destruct (String.leb x y); cbn [In]; [intuition|].
    rewrite IH. intuition.
Qed.

Lemma sorted_in (s : string) (l : list string) : In s (sorted l) <-> In s l.
Proof.
  unfold sorted. induction l as [|x l IH]; [reflexivity|].
  cbn [fold_right In]. rewrite insert_sorted_in, IH. intuition.
Qed.

Lemma insert_sorted_ascending (x : string) (l : list string) :
  ascending l = true -> ~ In x l -> ascending (insert_sorted x l) = true.
Proof.
  induction l as [|y l IH]; intros Hasc Hin; [reflexivity|].
  cbn [insert_sorted]. destruct (String.leb x y) eqn:E.
  - change (String.ltb x y && ascending (y :: l) = true).
    rewrite (@leb_ltb x y E), Hasc; [reflexivity|].
    intros ->. apply Hin. left. reflexivity.
  - assert (Hl : ascending l = true).
    { destruct l as [|z l]; [reflexivity|].
      change (String.ltb y z && ascending (z :: l) = true) in Hasc.
      apply andb_true_iff in Hasc. tauto. }
    assert (Hrec : ascending (insert_sorted x l) = true)
      by (apply IH; [exact Hl | intros H; apply Hin; right; exact H]).
    destruct l as [|z l].
    + cbn [insert_sorted]. change (String.ltb y x && true = true).
      rewrite (@not_leb_ltb x y E). reflexivity.
    + cbn [insert_sorted] in *. destruct (String.leb x z).
      * change (String.ltb y x && ascending (x :: z :: l) = true).
        rewrite (@not_leb_ltb x y E), Hrec. reflexivity.
      * change (String.ltb y z && ascending (z :: insert_sorted x l) = true).
        change (String.ltb y z && ascending (z :: l) = true) in Hasc.
        apply andb_true_iff in Hasc. rewrite (proj1 Hasc), Hrec. reflexivity.
Qed.

Lemma sorted_ascending (l : list string) : NoDup l -> ascending (sorted l) = true.
Proof.
  unfold sorted. induction 1 as [|x l Hx _ IH]; [reflexivity|].
  cbn [fold_right]. apply insert_sorted_ascending; [exact IH|].
  intros H. apply Hx. apply (sorted_in x l). exact H.
Qed.

Lemma insert_sorted_length (x : string) (l : list string) :
  List.length (insert_sorted x l) = S (List.length l).
Proof.
  induction l as [|y l IH]; [reflexivity|]. cbn [insert_sorted].
  destruct (String.leb x y); cbn [List.length]; [|rewrite IH]; reflexivity.
Qed.

Lemma sorted_length (l : list string) : List.length (sorted l) = List.length l.
Proof.
  unfold sorted. induction l as [|x l IH]; [reflexivity|].
  cbn [fold_right]. rewrite insert_sorted_length, IH. reflexivity.
Qed.

Lemma nonempty_iff (s : string) : nonempty s = true <-> s <> "".
Proof. destruct s; cbn; split; congruence. Qed.

(** X14.  [list_sections] returns the sections in strictly ascending
    order, hence each one once, and they are exactly the non-empty
    sections of the records. *)
Theorem list_sections_spec (icons : list IconInfo) :
  ascending (list_sections icons) = true /\
  forall s, In s (list_sections icons) <->
            s <> "" /\ exists r, In r icons /\ section r = s.
Proof.
  unfold list_sections, set_of. split.
  - apply sorted_ascending, NoDup_nodup.
  - intros s. rewrite sorted_in, nodup_In, in_map_iff. split.
    + intros (r & <- & Hr). apply filter_In in Hr. destruct Hr as [Hr Hne].
      split; [apply nonempty_iff, Hne | exists r; auto].
    + intros (Hne & r & Hr & <-). exists r. split; [reflexivity|].
      apply filter_In. split; [exact Hr | apply nonempty_iff, Hne].
Qed.

Lemma filter_length_split {A : Type} (f : A -> bool) (l : list A) :
  List.length (filter (fun a => negb (f a)) l) + List.length (filter f l)
  = List.length l.
Proof.
  induction l as [|a l IH]; [reflexivity|]. cbn [filter].
  destruct (f a); cbn [negb List.length]; lia.
Qed.

Lemma filter_length_le {A : Type} (f : A -> bool) (l : list A) :
  List.length (filter f l) <= List.length l.
Proof.
  induction l as [|a l IH]; [apply Nat.le_refl|]. cbn [filter].
  destruct (f a); cbn [List.length]; lia.
Qed.

Lemma nodup_length_le (l : list string) :
  List.length (nodup string_dec l) <= List.length l.
Proof.
  induction l as [|x l IH]; [apply Nat.le_refl|]. cbn [nodup].
  destruct (in_dec string_dec x l); cbn [List.length]; lia.
Qed.

(** X15.  In the summary printed by [main], the filled and the outlined
    icons add up to the total, and there are no more sections than
    icons. *)
Theorem summary_counts (icons : list IconInfo) :
  let '(total, filled, outlined, sections) := summary icons in
  filled + outlined = total /\ sections <= total.
Proof.
  unfold summary. split.
  - apply (filter_length_split (fun i => is_outlined i)).
  - unfold list_sections, set_of. rewrite sorted_length.
    eapply Nat.le_trans; [apply nodup_length_le|].
    rewrite length_map. apply filter_length_le.
Qed.

(** *** Names with a leading icon token *)

Lemma prefix_split (a s : string) :
  prefix a s = true -> exists rest, s = a ++ rest.
Proof.
  revert s. induction a as [|x a IH]; intros s; [exists s; reflexivity|].
  destruct s as [|y s]; [discriminate|]. rewrite prefix_cons. intros [-> H].
  destruct (IH _ H) as [rest ->]. exists rest. reflexivity.
Qed.

(** X16.  A name that begins with icon and a hyphen or an underscore, in
    any case, is an icon candidate for every kind that is not a page, a
    document or a section, whatever else the name contains; for these
    three kinds it is not. *)
Theorem is_icon_node_leading_icon (name node_type : string) :
  prefix "icon-" (lower name) = true \/ prefix "icon_" (lower name) = true ->
  is_icon_node name node_type =
  negb (mem (upper node_type) ["PAGE"; "DOCUMENT"; "SECTION"]).
Proof.
  intros H. unfold is_icon_node.
  destruct (mem (upper node_type) ["PAGE"; "DOCUMENT"; "SECTION"]); [reflexivity|].
  assert (Hfound : existsb (fun pattern => search no_flags pattern (lower name))
                     icon_patterns = true).
  { destruct H as [H | H]; apply prefix_split in H; destruct H as [rest ->];
      vm_compute; reflexivity. }
  rewrite Hfound. reflexivity.
Qed.

Lemma is_icon_node_leading_icon_witness :
  (prefix "icon-" (lower "Icon-Button") = true \/
   prefix "icon_" (lower "Icon-Button") = true) /\
  is_icon_node "Icon-Button" "COMPONENT" = true.
Proof.
  assert (H : prefix "icon-" (lower "Icon-Button") = true \/
              prefix "icon_" (lower "Icon-Button") = true)
    by (left; vm_compute; reflexivity).
  split; [exact H | exact (is_icon_node_leading_icon "Icon-Button" "COMPONENT" H)].
Defined.

(** *** The ends of the optimised text *)

Lemma replace_from_skip (old new : string) (s : string) :
  forall k, replace_from old new k s = replace_from old new 0 (skipn k s).
Proof.
  induction s as [|c s IH]; intros [|k]; try reflexivity.
  cbn [replace_from skipn]. apply IH.
Qed.

Lemma prefix_skipn (a s : string) :
  prefix a s = true -> s = a ++ skipn (String.length a) s.
Proof.
  revert s. induction a as [|x a IH]; intros s; [reflexivity|].
  destruct s as [|y s]; [discriminate|]. rewrite prefix_cons. intros [-> H].
  cbn [String.length skipn append]. rewrite <- (IH _ H). reflexivity.
Qed.

Lemma skipn_length (k : nat) (s : string) :
  String.length (skipn k s) <= String.length s.
Proof.
  revert s. induction k as [|k IH]; intros [|c s]; cbn [skipn String.length];
    try lia. specialize (IH s). lia.
Qed.

Lemma last_of_app (a b : string) :
  b <> "" -> last_of (a ++ b) = last_of b.
Proof.
  intros Hb. induction a as [|x a IH]; [reflexivity|].
  cbn [append]. destruct (a ++ b) as [|y t] eqn:E.
  - destruct a; [cbn in E; contradiction | discriminate].
  - rewrite <- IH. reflexivity.
Qed.

Lemma last_of_cons (c : ascii) (s : string) :
  s <> "" -> last_of (String c s) = last_of s.
Proof. destruct s; [contradiction | reflexivity]. Qed.

Lemma last_of_some (s : string) (z : ascii) : last_of s = Some z -> s <> "".
Proof. destruct s; discriminate. Qed.

Lemma ends_ok_last_of (p : ascii -> bool) (s : string) :
  ends_ok p s = match last_of s with
                | Some z => negb (p z)
                | None => true
                end.
Proof. destruct s; reflexivity. Qed.

(** [s.replace(old, new)] keeps the last character of a text that does
    not end the way [old] ends. *)
Lemma replace_last (p : ascii -> bool) (o : ascii) (old new : string) (z : ascii) :
  p (last_char o old) = true -> p z = false ->
  forall n s, String.length s <= n -> last_of s = Some z ->
              last_of (replace (String o old) new s) = Some z.
Proof.
  intros Hold Hz. unfold replace. induction n as [|n IH]; intros s Hlen Hlast.
  - destruct s; [discriminate | cbn in Hlen; lia].
  - destruct s as [|c s]; [discriminate|]. cbn [replace_from].
    destruct (prefix (String o old) (String c s)) eqn:E.
    + rewrite replace_from_skip.
      pose proof (prefix_skipn _ _ E) as Hs.
      change (skipn (String.length (String o old)) (String c s))
        with (skipn (String.length old) s) in Hs.
      replace (String.length (String o old) - 1) with (String.length old)
        by (cbn [String.length]; lia).
      destruct (skipn (String.length old) s) as [|y t] eqn:Erest.
      * exfalso. rewrite append_empty in Hs. rewrite Hs in Hlast.
        cbn [last_of] in Hlast. injection Hlast as <-. congruence.
      * assert (Hrest : last_of (String y t) = Some z).
        { rewrite Hs in Hlast. rewrite last_of_app in Hlast by discriminate.
          exact Hlast. }
        assert (Hshort : String.length (String y t) <= n).
        { rewrite <- Erest. pose proof (skipn_length (String.length old) s).
          cbn [String.length] in Hlen. lia. }
        pose proof (IH _ Hshort Hrest) as H.
        rewrite last_of_app; [exact H | exact (@last_of_some _ _ H)].
    + destruct s as [|y t]; [exact Hlast|].
      assert (Hrest : last_of (String y t) = Some z) by exact Hlast.
      assert (Hshort : String.length (String y t) <= n)
        by (cbn [String.length] in *; lia).
      pose proof (IH _ Hshort Hrest) as H.
      rewrite last_of_cons; [exact H | exact (@last_of_some _ _ H)].
Qed.

Lemma replace_ends (p : ascii -> bool) (o : ascii) (old new s : string) :
  p (last_char o old) = true -> ends_ok p s = true ->
  ends_ok p (replace (String o old) new s) = true.
Proof.
  intros Hold. rewrite !ends_ok_last_of.
  destruct (last_of s) as [z|] eqn:E.
  - intros Hz. apply negb_true_iff in Hz.
    rewrite (@replace_last p o old new z Hold Hz (String.length s) s (Nat.le_refl _) E).
    rewrite Hz. reflexivity.
  - destruct s; [reflexivity | discriminate].
Qed.

Lemma replace_starts (p : ascii -> bool) (old : string) (n : ascii) (new s : string) :
  p n = false -> starts_ok p s = true ->
  starts_ok p (replace old (String n new) s) = true.
Proof.
  intros Hn. unfold replace. destruct s as [|c s]; [reflexivity|].
  cbn [replace_from]. destruct (prefix old (String c s)); [|auto].
  intros _. cbn [append starts_ok]. rewrite Hn. reflexivity.
Qed.

(** X17.  The text returned by [optimize_svg] neither begins nor ends
    with white space: stripping it again changes nothing. *)
Theorem optimize_svg_stripped (svg_content : string) :
  strip (optimize_svg svg_content) = optimize_svg svg_content.
Proof.
  unfold optimize_svg, default_fill, clean.
  set (t := fold_left apply_sub removals
              (force_height (force_width (force_viewBox svg_content)))).
  destruct (strip_by_ends is_space t) as [Hs He]. fold (strip t) in Hs, He.
  unfold strip at 1. apply strip_by_fixed;
    destruct (negb (contains "fill=" (strip t))); auto.
  - apply replace_starts; [reflexivity | exact Hs].
  - apply replace_ends; [reflexivity | exact He].
Qed.

(** *** The name of the output file, continued *)

(** X18.  Whatever the stem of the input file and the override, the name
    of the output file holds no hyphen, no underscore and no white
    space. *)
Theorem process_icon_file_name_clean (content stem : string)
  (force_outlined : option bool) (optimized output_name : string) :
  process_icon_file content stem force_outlined = inr (optimized, output_name) ->
  optimized = optimize_svg content /\
  all_chars (fun c => negb (is_delimiter c)) output_name = true.
Proof.
  unfold process_icon_file.
  destruct (negb (contains "<svg" (lower content))); [discriminate|].
  destruct (determine_variant stem) as [base_name auto_outlined].
  intros E. injection E as <- <-. split; [reflexivity|].
  assert (H : all_chars (fun c => negb (is_delimiter c)) (to_pascal_case base_name) = true).
  { apply (@to_pascal_case_chars (fun _ => true)).
    - intros x _. apply case_keeps_not_delimiter.
    - clear. induction base_name as [|c s IH]; [reflexivity | exact IH]. }
  destruct (match force_outlined with Some b => b | None => auto_outlined end);
    rewrite all_chars_app, H; reflexivity.
Qed.

Lemma process_icon_file_name_clean_witness :
  process_icon_file "<svg></svg>" "arrow-left_outline" None =
  inr ("<svg></svg>", "ArrowLeftOutlined.svg") /\
  "<svg></svg>" = optimize_svg "<svg></svg>" /\
  all_chars (fun c => negb (is_delimiter c)) "ArrowLeftOutlined.svg" = true.
Proof.
  assert (H : process_icon_file "<svg></svg>" "arrow-left_outline" None =
              inr ("<svg></svg>", "ArrowLeftOutlined.svg"))
    by (vm_compute; reflexivity).
  split; [exact H | exact (process_icon_file_name_clean _ _ _ H)].
Defined.

(** *** The groups of a match *)

Lemma group_set_cap_same (n : nat) (v : string) (cs : list (nat * string)) :
  group n (set_cap n v cs) = v.
Proof.
  induction cs as [|[m w] cs IH]; cbn [set_cap group].
  - rewrite Nat.eqb_refl. reflexivity.
  - destruct (m =? n) eqn:E; cbn [group]; [rewrite Nat.eqb_refl | rewrite E]; auto.
Qed.

Lemma group_set_cap_other (n m : nat) (v : string) (cs : list (nat * string)) :
  (m =? n) = false -> group n (set_cap m v cs) = group n cs.
Proof.
  intros Hm. induction cs as [|[m' w] cs IH]; cbn [set_cap group].
  - rewrite Hm. reflexivity.
  - destruct (m' =? m) eqn:E; cbn [group].
    + apply Nat.eqb_eq in E. subst m'. rewrite Hm. reflexivity.
    + destruct (m' =? n); [reflexivity | exact IH].
Qed.

Section Groups.

Variable fl : flags.
Variable n : nat.

Lemma one_keeping (p : ascii -> bool) : keeping n (one p).
Proof.
  intros st k x. unfold one. destruct (rest st) as [|c s]; [discriminate|].
  destruct (p c); [|discriminate]. intros H. exists (step st s).
  split; [simpl; lia | split; [reflexivity | exact H]].
Qed.

Lemma star_loop_keeping
  (body : mstate -> (mstate -> option mstate) -> option mstate) (greedy : bool) :
  keeping n body -> forall m, keeping n (fun st k => star_loop greedy body m st k).
Proof.
  intros Hbody. induction m as [|m IH]; intros st k x; cbn [star_loop].
  - intros H. exists st. split; [lia | split; [reflexivity | exact H]].
  - assert (Hagain :
      body st (fun st' => if pos st <? pos st' then star_loop greedy body m st' k else None)
      = Some x ->
      exists st', pos st <= pos st' /\ group n (caps st') = group n (caps st) /\
                  k st' = Some x).
    { intros H. destruct (Hbody _ _ _ H) as (st1 & Hle & Hg & H1).
      destruct (pos st <? pos st1); [|discriminate].
      destruct (IH _ _ _ H1) as (st2 & Hle2 & Hg2 & H2).
      exists st2. split; [lia | split; [congruence | exact H2]]. }
    intros H. destruct greedy; apply orelse_cases in H; destruct H as [H | H];
      auto; exists st; (split; [lia | split; [reflexivity | exact H]]).
Qed.

Lemma rmatch_keeping (r : regex) : mentions n r = false -> keeping n (rmatch fl r).
Proof.
  induction r as [ | c | | neg items | r1 IH1 r2 IH2 | r1 IH1 r2 IH2
                 | g r IH | m r IH | | ]; cbn [mentions]; intros Hn st k x;
    cbn [rmatch].
  - intros H. exists st. split; [lia | split; [reflexivity | exact H]].
  - apply one_keeping.
  - apply one_keeping.
  - apply one_keeping.
  - apply orb_false_iff in Hn. destruct Hn as [H1 H2]. intros H.
    destruct (IH1 H1 _ _ _ H) as (st1 & Hle1 & Hg1 & E1).
    destruct (IH2 H2 _ _ _ E1) as (st2 & Hle2 & Hg2 & E2).
    exists st2. split; [lia | split; [congruence | exact E2]].
  - apply orb_false_iff in Hn. destruct Hn as [H1 H2]. intros H.
    apply orelse_cases in H. destruct H as [H | H]; [apply (IH1 H1) | apply (IH2 H2)];
      exact H.
  - apply (star_loop_keeping g (IH Hn)).
  - apply orb_false_iff in Hn. destruct Hn as [Hm Hr]. intros H.
    destruct (IH Hr _ _ _ H) as (st1 & Hle1 & Hg1 & E1).
    eexists. split; [|split; [|exact E1]]; cbn [pos caps]; [exact Hle1|].
    rewrite (@group_set_cap_other _ _ _ _ Hm). exact Hg1.
  - destruct (pos st =? 0); [|discriminate]. intros H. exists st.
    split; [lia | split; [reflexivity | exact H]].
  - destruct (at_end (rest st)); [|discriminate]. intros H. exists st.
    split; [lia | split; [reflexivity | exact H]].
Qed.

(** A group around one character or more of a set, followed by a pattern
    without that group, ends the match with a text in the group. *)
Lemma rmatch_group_plus (neg : bool) (items : list citem) (tail : regex)
  (k : mstate -> option mstate) (st : mstate) (x : mstate) :
  mentions n tail = false -> returns_state k ->
  rmatch fl (Seq (Grp n (Plus (Set_ neg items))) tail) st k = Some x ->
  group n (caps x) <> "".
Proof.
  intros Htail Hk. cbn [rmatch Plus]. unfold one at 1.
  destruct (rest st) as [|c s] eqn:Erest; [discriminate|].
  destruct (set_ok fl neg items c); [|discriminate]. intros H.
  destruct (@star_loop_forward _ true (@one_forward _) _ _ _ _ H) as (st1 & Hle1 & H1).
  destruct (rmatch_keeping tail Htail _ _ H1) as (st2 & _ & Hg & E2).
  apply Hk in E2. subst x. rewrite Hg. cbn [caps]. rewrite group_set_cap_same.
  cbn [step pos] in Hle1.
  destruct (pos st1 - pos st) as [|d] eqn:Ed; [lia|]. discriminate.
Qed.

End Groups.

(** A property of the final state of [rest] is one of [Seq r rest]. *)
Lemma rmatch_seq_final (fl : flags) (r rest : regex)
  (k : mstate -> option mstate) (Q : mstate -> Prop) :
  (forall st x, rmatch fl rest st k = Some x -> Q x) ->
  forall st x, rmatch fl (Seq r rest) st k = Some x -> Q x.
Proof.
  intros H st x. cbn [rmatch]. intros E.
  destruct (rmatch_forward fl r _ _ E) as (st1 & _ & E1). exact (H _ _ E1).
Qed.

(** What holds of the final state of every attempt holds of the groups of
    every match. *)
Lemma match_at_final (fl : flags) (r : regex) (Q : mstate -> Prop) :
  (forall k, returns_state k ->
             forall st x, rmatch fl r st k = Some x -> Q x) ->
  forall i s adv m g, match_at fl r i s adv = Some (m, g) ->
                      exists x, Q x /\ g = caps x.
Proof.
  intros H i s adv m g. unfold match_at.
  destruct (rmatch fl r (MState i s []) _) as [x|] eqn:E; [|discriminate].
  intros Eg. injection Eg as _ <-. exists x. split; [|reflexivity].
  refine (H _ _ _ _ E). intros st y.
  destruct (adv && (pos st =? i)); [discriminate|]. intros Ey. injection Ey as <-.
  reflexivity.
Qed.

Lemma scan_hits (fl : flags) (r : regex) (Q : list (nat * string) -> Prop) :
  (forall i s adv m g, match_at fl r i s adv = Some (m, g) -> Q g) ->
  forall s i k, Forall Q (hits (scan fl r i k s)).
Proof.
  intros H. induction s as [|c s IH]; intros i k.
  - destruct k as [|k]; cbn [scan]; [|constructor].
    destruct (match_at fl r i "" false) as [[[|m] g]|] eqn:E; cbn [hits];
      repeat constructor; exact (H _ _ _ _ _ E).
  - destruct k as [|k]; cbn [scan]; [|apply IH].
    destruct (match_at fl r i (String c s) false) as [[[|m] g]|] eqn:E; cbn [hits].
    + constructor; [exact (H _ _ _ _ _ E)|].
      destruct (match_at fl r i (String c s) true) as [[[|m'] g']|] eqn:E';
        cbn [hits]; try apply IH.
      constructor; [exact (H _ _ _ _ _ E') | apply IH].
    + constructor; [exact (H _ _ _ _ _ E) | apply IH].
    + apply IH.
Qed.

(** The three groups of a match of the tag pattern hold a text each. *)
Lemma node_pattern_groups (i : nat) (s : string) (adv : bool) (m : nat)
  (g : list (nat * string)) :
  match_at IGNORECASE node_pattern i s adv = Some (m, g) ->
  group 1 g <> "" /\ group 2 g <> "" /\ group 3 g <> "".
Proof.
  intros E.
  assert (Hfinal : forall k, returns_state k ->
            forall st x, rmatch IGNORECASE node_pattern st k = Some x ->
                         group 1 (caps x) <> "" /\ group 2 (caps x) <> "" /\
                         group 3 (caps x) <> "").
  { intros k Hk st x. unfold node_pattern. cbn [Cat]. intros Hm.
    split; [|split].
    - revert st x Hm. apply rmatch_seq_final. intros st x.
      apply rmatch_group_plus; [reflexivity | exact Hk].
    - revert st x Hm. do 6 apply rmatch_seq_final. intros st x.
      apply rmatch_group_plus; [reflexivity | exact Hk].
    - revert st x Hm. do 12 apply rmatch_seq_final. intros st x.
      apply rmatch_group_plus; [reflexivity | exact Hk]. }
  destruct (match_at_final _ _ _ Hfinal _ _ _ E) as (x & Hx & ->). exact Hx.
Qed.

Lemma xml_loop_named (matches : list (list (nat * string))) :
  Forall (fun g => group 1 g <> "" /\ group 2 g <> "" /\ group 3 g <> "") matches ->
  forall current_section r,
    In r (xml_loop current_section matches) ->
    name r <> "" /\ node_id r <> "" /\ path r <> "".
Proof.
  induction 1 as [|m matches (H1 & H2 & H3) _ IH]; intros current_section r Hin;
    [destruct Hin|].
  cbn [xml_loop] in Hin.
  destruct (mem (upper (group 1 m)) ["FRAME"; "PAGE"; "SECTION"]);
    [exact (IH _ _ Hin)|].
  destruct (is_icon_node (group 2 m) (group 1 m)); [|exact (IH _ _ Hin)].
  destruct Hin as [<- | Hin]; [|exact (IH _ _ Hin)].
  cbn [name node_id path]. split; [exact H2|]. split; [exact H3|].
  destruct current_section; discriminate.
Qed.

(** X19.  Every record of tag-based extraction has a name, an identifier
    and a path that are not empty. *)
Theorem parse_xml_metadata_named (content : string) (r : IconInfo) :
  In r (parse_xml_metadata content) ->
  name r <> "" /\ node_id r <> "" /\ path r <> "".
Proof.
  unfold parse_xml_metadata. apply xml_loop_named.
  apply scan_hits. exact node_pattern_groups.
Qed.

Lemma parse_xml_metadata_named_witness :
  In (mkIconInfo "icon-home" "1:1" "" false "/icon-home")
     (parse_xml_metadata lone_component) /\
  "icon-home" <> "" /\ "1:1" <> "" /\ "/icon-home" <> "".
Proof.
  assert (H : In (mkIconInfo "icon-home" "1:1" "" false "/icon-home")
                 (parse_xml_metadata lone_component))
    by (vm_compute; left; reflexivity).
  split; [exact H | exact (parse_xml_metadata_named lone_component _ H)].
Defined.

(** *** The listings of [format_icon_list] *)

Lemma mem_in (x : string) (l : list string) : mem x l = true <-> In x l.
Proof.
  unfold mem. rewrite existsb_exists. split.
  - intros (y & Hy & E). apply String.eqb_eq in E. subst y. exact Hy.
  - intros H. exists x. split; [exact H | apply String.eqb_refl].
Qed.

Lemma group_append_keys (key : string) (icon : IconInfo)
  (d : list (string * list IconInfo)) :
  map fst (group_append key icon d) =
  if mem key (map fst d) then map fst d else (map fst d ++ [key])%list.
Proof.
  induction d as [|[k l] d IH]; [reflexivity|].
  cbn [group_append map fst mem existsb]. fold (mem key (map fst d)).
  destruct (String.eqb key k); [reflexivity|].
  cbn [map fst orb]. rewrite IH. destruct (mem key (map fst d)); reflexivity.
Qed.

Lemma group_append_nodup (key : string) (icon : IconInfo)
  (d : list (string * list IconInfo)) :
  NoDup (map fst d) -> NoDup (map fst (group_append key icon d)).
Proof.
  intros H. rewrite group_append_keys.
  destruct (mem key (map fst d)) eqn:E; [exact H|].
  apply (Permutation_NoDup (Permutation_cons_append (map fst d) key)).
  constructor; [|exact H]. intros Hin. apply mem_in in Hin. congruence.
Qed.

Lemma group_append_in (key : string) (icon : IconInfo)
  (d : list (string * list IconInfo)) (k : string) :
  In k (map fst (group_append key icon d)) <-> k = key \/ In k (map fst d).
Proof.
  rewrite group_append_keys. destruct (mem key (map fst d)) eqn:E.
  - apply mem_in in E. split; [auto|]. intros [-> | H]; assumption.
  - rewrite in_app_iff. cbn [In]. intuition.
Qed.

Lemma group_append_icons (key : string) (icon : IconInfo)
  (d : list (string * list IconInfo)) :
  Permutation (flat_map snd (group_append key icon d))
              (flat_map snd d ++ [icon])%list.
Proof.
  induction d as [|[k l] d IH]; [apply Permutation_refl|].
  cbn [group_append]. destruct (String.eqb key k); cbn [flat_map snd].
  - rewrite <- !app_assoc. apply Permutation_app_head, Permutation_app_comm.
  - rewrite <- app_assoc. apply Permutation_app_head, IH.
Qed.

Lemma group_append_filed (P : string -> IconInfo -> Prop) (key : string)
  (icon : IconInfo) (d : list (string * list IconInfo)) :
  P key icon ->
  Forall (fun g => snd g <> [] /\ Forall (P (fst g)) (snd g)) d ->
  Forall (fun g => snd g <> [] /\ Forall (P (fst g)) (snd g))
         (group_append key icon d).
Proof.
  intros Hicon. induction 1 as [|[k l] d [Hne Hl] Hd IH]; cbn [group_append].
  - constructor; [|constructor]. cbn [fst snd].
    split; [discriminate | constructor; [exact Hicon | constructor]].
  - destruct (String.eqb key k) eqn:E.
    + apply String.eqb_eq in E. subst k. constructor; [|exact Hd].
      cbn [fst snd] in *. split.
      * destruct l; discriminate.
      * apply Forall_app. split; [exact Hl | constructor; [exact Hicon | constructor]].
    + constructor; [split; assumption | exact IH].
Qed.

Lemma by_section_from (icons : list IconInfo) :
  forall d : list (string * list IconInfo),
    let r := fold_left (fun d icon => group_append (section_or_default icon) icon d)
               icons d in
    (NoDup (map fst d) -> NoDup (map fst r)) /\
    Permutation (flat_map snd r) (flat_map snd d ++ icons)%list /\
    (Forall (fun g => snd g <> [] /\
                      Forall (fun icon => section_or_default icon = fst g) (snd g)) d ->
     Forall (fun g => snd g <> [] /\
                      Forall (fun icon => section_or_default icon = fst g) (snd g)) r) /\
    (forall k, In k (map fst r) <->
               In k (map fst d) \/ In k (map section_or_default icons)).
Proof.
  induction icons as [|icon icons IH]; intros d; cbn [fold_left].
  - cbv zeta. split; [auto|]. split; [rewrite app_nil_r; apply Permutation_refl|].
    split; [auto|]. intros k. cbn [map In]. intuition.
  - specialize (IH (group_append (section_or_default icon) icon d)).
    cbv zeta in IH |- *. destruct IH as (Hnd & Hperm & Hfiled & Hkeys).
    split; [intros H; apply Hnd, group_append_nodup, H|].
    split.
    { eapply Permutation_trans; [exact Hperm|].
      change (icon :: icons) with ([icon] ++ icons)%list. rewrite app_assoc.
      apply Permutation_app_tail, group_append_icons. }
    split.
    { intros H. apply Hfiled.
      apply (group_append_filed (fun k i => section_or_default i = k));
        [reflexivity | exact H]. }
    intros k. rewrite Hkeys, group_append_in. cbn [map In]. intuition.
Qed.

Lemma insert_by_perm {A : Type} (key : A -> string) (x : A) (l : list A) :
  Permutation (insert_by key x l) (x :: l).
Proof.
  induction l as [|y l IH]; cbn [insert_by]; [apply Permutation_refl|].
  destruct (String.leb (key x) (key y)); [apply Permutation_refl|].
  eapply Permutation_trans; [apply perm_skip, IH | apply perm_swap].
Qed.

Lemma sorted_by_perm {A : Type} (key : A -> string) (l : list A) :
  Permutation (sorted_by key l) l.
Proof.
  unfold sorted_by. induction l as [|x l IH]; [apply Permutation_refl|].
  cbn [fold_right]. eapply Permutation_trans; [apply insert_by_perm|].
  apply perm_skip, IH.
Qed.

Lemma sorted_by_keys {A : Type} (key : A -> string) (l : list A) :
  map key (sorted_by key l) = sorted (map key l).
Proof.
  unfold sorted_by, sorted. induction l as [|x l IH]; [reflexivity|].
  cbn [fold_right map]. rewrite <- IH. clear IH.
  induction (fold_right (insert_by key) [] l) as [|y l' IH];
    cbn [insert_by insert_sorted map]; [reflexivity|].
  destruct (String.leb (key x) (key y)); cbn [map]; [reflexivity|].
  rewrite IH. reflexivity.
Qed.

Lemma insert_sorted_nondescending (x : string) (l : list string) :
  nondescending l = true -> nondescending (insert_sorted x l) = true.
Proof.
  induction l as [|y l IH]; intros Hl; [reflexivity|].
  cbn [insert_sorted]. destruct (String.leb x y) eqn:E.
  - change (String.leb x y && nondescending (y :: l) = true).
    rewrite E, Hl. reflexivity.
  - assert (Hyx : String.leb y x = true).
    { pose proof (not_leb_ltb _ _ E) as H. unfold String.ltb in H.
      unfold String.leb. destruct (String.compare y x); congruence. }
    destruct l as [|z l].
    + cbn [insert_sorted nondescending]. rewrite Hyx. reflexivity.
    + cbn [nondescending] in Hl. apply andb_true_iff in Hl. destruct Hl as [Hyz Hl].
      specialize (IH Hl). cbn [insert_sorted] in IH |- *.
      destruct (String.leb x z).
      * change (String.leb y x && nondescending (x :: z :: l) = true).
        rewrite Hyx, IH. reflexivity.
      * change (String.leb y z && nondescending (z :: insert_sorted x l) = true).
        rewrite Hyz, IH. reflexivity.
Qed.

Lemma sorted_nondescending (l : list string) : nondescending (sorted l) = true.
Proof.
  unfold sorted. induction l as [|x l IH]; [reflexivity|].
  cbn [fold_right]. apply insert_sorted_nondescending, IH.
Qed.

Lemma flat_map_listing (gs : list (string * list IconInfo)) :
  flat_map section_lines gs =
  flat_map listing (map (fun g => (fst g, sorted_by name (snd g))) gs).
Proof.
  induction gs as [|[k l] gs IH]; [reflexivity|].
  cbn [flat_map map section_lines]. rewrite IH. reflexivity.
Qed.

Lemma flat_map_sorted_icons (gs : list (string * list IconInfo)) :
  Permutation
    (flat_map snd (map (fun g => (fst g, sorted_by name (snd g))) gs))
    (flat_map snd gs).
Proof.
  induction gs as [|[k l] gs IH]; [apply Permutation_refl|].
  cbn [flat_map map fst snd]. apply Permutation_app; [apply sorted_by_perm | exact IH].
Qed.

(** X20.  The listing by section is made of groups: a heading and one
    line for each icon of the group.  The headings are in strictly
    ascending order, every icon given is in exactly one group, which is
    the one of its section (of Uncategorized when it has none), no group
    is empty, and the names ascend inside a group. *)
Theorem format_icon_list_groups (icons : list IconInfo) :
  exists groups : list (string * list IconInfo),
    format_lines icons false = flat_map listing groups /\
    ascending (map fst groups) = true /\
    Permutation (flat_map snd groups) icons /\
    Forall filed groups.
Proof.
  destruct (by_section_from icons []) as (Hnd & Hperm & Hfiled & _).
  cbv zeta in Hnd, Hperm, Hfiled. fold (by_section icons) in Hnd, Hperm, Hfiled.
  set (items := sorted_by (fun item => fst item) (by_section icons)).
  assert (Hitems : Permutation items (by_section icons)) by apply sorted_by_perm.
  exists (map (fun g => (fst g, sorted_by name (snd g))) items).
  split; [apply flat_map_listing|]. split.
  { rewrite map_map. cbn [fst].
    unfold items. rewrite (sorted_by_keys (fun item => fst item)).
    apply sorted_ascending, Hnd. constructor. }
  split.
  { eapply Permutation_trans; [apply flat_map_sorted_icons|].
    eapply Permutation_trans; [apply Permutation_flat_map, Hitems|].
    exact Hperm. }
  apply Forall_map.
  assert (H : Forall (fun g => snd g <> [] /\
                Forall (fun icon => section_or_default icon = fst g) (snd g)) items).
  { apply (Permutation_Forall (Permutation_sym Hitems)), Hfiled. constructor. }
  apply (Forall_impl _ (P := fun g => snd g <> [] /\
                Forall (fun icon => section_or_default icon = fst g) (snd g)));
    [|exact H].
  intros [k l] [Hne Hl]. unfold filed. cbn [fst snd] in *. split; [|split].
  - intros E. apply Hne.
    apply Permutation_nil. rewrite <- E. apply sorted_by_perm.
  - apply (Permutation_Forall (Permutation_sym (sorted_by_perm name l))), Hl.
  - rewrite sorted_by_keys. apply sorted_nondescending.
Qed.

Lemma flat_map_section_lines_length (gs : list (string * list IconInfo)) :
  List.length (flat_map section_lines gs) =
  List.length gs + List.length (flat_map snd gs).
Proof.
  induction gs as [|[k l] gs IH]; [reflexivity|].
  cbn [flat_map section_lines snd]. rewrite !length_app. cbn [List.length].
  rewrite length_map, IH.
  rewrite (Permutation_length (sorted_by_perm name l)). lia.
Qed.

(** X21.  The listing by section has one line for each icon and one for
    each heading, and the headings are the distinct sections of the
    icons, Uncategorized standing for the empty one. *)
Theorem format_icon_list_line_count (icons : list IconInfo) :
  List.length (format_lines icons false) =
  List.length (set_of (map section_or_default icons)) + List.length icons.
Proof.
  destruct (by_section_from icons []) as (Hnd & Hperm & _ & Hkeys).
  cbv zeta in Hnd, Hperm, Hkeys. fold (by_section icons) in Hnd, Hperm, Hkeys.
  cbn [format_lines]. rewrite flat_map_section_lines_length.
  set (items := sorted_by (fun item => fst item) (by_section icons)).
  assert (Hitems : Permutation items (by_section icons)) by apply sorted_by_perm.
  rewrite (Permutation_length Hitems).
  rewrite (Permutation_length (Permutation_flat_map snd Hitems)).
  rewrite (Permutation_length Hperm). cbn [flat_map app].
  f_equal. rewrite <- (length_map fst (by_section icons)).
  apply Permutation_length, NoDup_Permutation.
  - apply Hnd. constructor.
  - apply NoDup_nodup.
  - intros k. unfold set_of. rewrite nodup_In, Hkeys. cbn [map In]. intuition.
Qed.

Lemma concat_app (sep : string) (l1 l2 : list string) :
  l1 <> [] -> l2 <> [] ->
  String.concat sep (l1 ++ l2) = String.concat sep l1 ++ sep ++ String.concat sep l2.
Proof.
  intros H1 H2. induction l1 as [|x l1 IH]; [congruence|]. clear H1.
  destruct l1 as [|y l1].
  - destruct l2 as [|z l2]; [congruence | reflexivity].
  - change (x ++ sep ++ String.concat sep ((y :: l1) ++ l2) =
            (x ++ sep ++ String.concat sep (y :: l1)) ++ sep ++ String.concat sep l2).
    rewrite IH by discriminate. rewrite <- !append_assoc. reflexivity.
Qed.

(** X22.  The verbose listing takes five lines for each icon, in the
    order given, and the listing of a sequence made of two parts that are
    not empty is the listing of the first, a line feed, and the listing of
    the second. *)
Theorem format_icon_list_verbose (a b : list IconInfo) :
  a <> [] -> b <> [] ->
  List.length (format_lines (a ++ b) true) = 5 * List.length (a ++ b) /\
  format_icon_list (a ++ b) true =
  format_icon_list a true ++ newline ++ format_icon_list b true.
Proof.
  intros Ha Hb. split.
  - cbn [format_lines]. induction (a ++ b)%list as [|icon l IH]; [reflexivity|].
    cbn [flat_map verbose_lines app List.length] in *. rewrite IH. lia.
  - unfold format_icon_list. cbn [format_lines]. rewrite flat_map_app.
    apply concat_app.
    + destruct a; [congruence | discriminate].
    + destruct b; [congruence | discriminate].
Qed.

Lemma format_icon_list_verbose_witness :
  let a := [mkIconInfo "home" "1:2" "Navigation" false "Navigation/home"] in
  let b := [mkIconInfo "star-outline" "1:3" "" true "/star-outline"] in
  a <> [] /\ b <> [] /\
  List.length (format_lines (a ++ b) true) = 5 * List.length (a ++ b) /\
  format_icon_list (a ++ b) true =
  format_icon_list a true ++ newline ++ format_icon_list b true.
Proof.
  cbv zeta. split; [discriminate|]. split; [discriminate|].
  apply format_icon_list_verbose; discriminate.
Defined.

(** *** The first character of the canonical name *)

Lemma upper_char_not_lower (c : ascii) : is_lower (upper_char c) = false.
Proof. destruct c as [[] [] [] [] [] [] [] []]; vm_compute; reflexivity. Qed.

Lemma join_capitalize_starts (ws : list string) :
  starts_ok is_lower (join (map capitalize (filter nonempty ws))) = true.
Proof.
  induction ws as [|w ws IH]; [reflexivity|].
  cbn [filter]. destruct w as [|c w]; [exact IH|].
  cbn [nonempty map capitalize]. unfold join. cbn [fold_right append starts_ok].
  rewrite upper_char_not_lower. reflexivity.
Qed.

(** X23.  The canonical name never begins with a lower-case letter,
    whatever the input. *)
Theorem to_pascal_case_starts_upper (name : string) :
  starts_ok is_lower (to_pascal_case name) = true.
Proof.
  unfold to_pascal_case. apply join_capitalize_starts.
Qed.
